(** * A bounded worker pool with a resettable error: model and verification

    The Go package [workers] (src/workers/workers.go) runs one scheduler
    goroutine ([processQueue]), [count] worker goroutines ([startWorker]) and
    is driven by callers through [NewJob], [Job.Go], [Job.Done], [Job.Wait]
    and [Stop].

    The embedding is an interleaving semantics.  The state of the pool is a
    record holding the fields of the Go struct, the heap of allocated jobs
    and one program counter per goroutine.  Each operation of the source is a
    partial function on that state: [None] means that the goroutine is
    blocked, [Some s'] is the state after its next atomic step.  A step
    contains at most one access to shared memory; a critical section of the
    mutex [lock] contains no blocking operation and is one step.  The two
    unbuffered channels shared by several goroutines ([w.tasks] and
    [w.stoppedWorkers]) are rendezvous steps between a sender and a receiver.
    A Go panic (send on a closed channel, close of a closed channel, negative
    WaitGroup counter) terminates the process: it sets [crashed], and a
    crashed pool takes no further step.

    Scope.  The callers are modelled as far as the pool observes them: [Stop]
    is called by one goroutine, once (a further call would panic at
    [close(w.queue)], line 127); a task is a non-nil closure that returns,
    given by the value it returns; the sizes passed to [New] and [NewJob] are
    natural numbers ([make] panics on a negative size). *)

From stdpp Require Import base list option strings.
From Stdlib Require Import Lia.

Section Workers.

(** The package-level error value [ErrShutdown] is declared outside
    workers.go; the model is parametric in the type of Go errors and in that
    value. *)
Context {error : Type} (ErrShutdown : error).

(** ** Data *)

(** A task is a closure [func() error].  The pool only observes the value the
    call returns ([None] is Go's [nil]). *)
Definition task : Type := option error.

(** State of the goroutine started by [Job.Done] when a callback is given. *)
Inductive cb_state := CbNone | CbWaiting | CbCalled.

(** [type Job struct { tasks; completed; result }].  A buffered channel is its
    list of pending elements with its capacity; a channel that is only ever
    closed is a boolean.  [admitted] records that the send at the end of
    [NewJob] has happened, so that the caller holds the handle.  [pushed] and
    [delivered] are history variables: every task ever sent on [tasks] and
    every value ever sent on [result]. *)
Record Job := mkJob {
  tasks : list task;
  tasks_cap : nat;
  tasks_closed : bool;
  completed : bool;
  result : list (option error);
  admitted : bool;
  callback : cb_state;
  pushed : list task;
  delivered : list (option error)
}.

Definition set_tasks (ts : list task) (J : Job) : Job :=
  mkJob ts (tasks_cap J) (tasks_closed J) (completed J) (result J)
        (admitted J) (callback J) (pushed J) (delivered J).
Definition push_task (f : task) (J : Job) : Job :=
  mkJob (tasks J ++ [f]) (tasks_cap J) (tasks_closed J) (completed J) (result J)
        (admitted J) (callback J) (pushed J ++ [f]) (delivered J).
Definition close_tasks (cb : cb_state) (J : Job) : Job :=
  mkJob (tasks J) (tasks_cap J) true (completed J) (result J)
        (admitted J) cb (pushed J) (delivered J).
Definition close_completed (J : Job) : Job :=
  mkJob (tasks J) (tasks_cap J) (tasks_closed J) true (result J)
        (admitted J) (callback J) (pushed J) (delivered J).
Definition send_result (r : option error) (J : Job) : Job :=
  mkJob (tasks J) (tasks_cap J) (tasks_closed J) (completed J) (result J ++ [r])
        (admitted J) (callback J) (pushed J) (delivered J ++ [r]).
Definition set_result (rs : list (option error)) (J : Job) : Job :=
  mkJob (tasks J) (tasks_cap J) (tasks_closed J) (completed J) rs
        (admitted J) (callback J) (pushed J) (delivered J).
Definition set_admitted (J : Job) : Job :=
  mkJob (tasks J) (tasks_cap J) (tasks_closed J) (completed J) (result J)
        true (callback J) (pushed J) (delivered J).
Definition set_callback (cb : cb_state) (J : Job) : Job :=
  mkJob (tasks J) (tasks_cap J) (tasks_closed J) (completed J) (result J)
        (admitted J) cb (pushed J) (delivered J).

(** The job built by [NewJob]: three fresh channels, [result] of capacity 1. *)
Definition fresh_job (taskBacklog : nat) : Job :=
  mkJob [] taskBacklog false false [] false CbNone [] [].

(** Program counter of the goroutine of [processQueue]; a job is the index of
    its cell in the heap. *)
Inductive sched_pc :=
| SRange                        (* for j := range w.queue *)
| SCheck (j : nat)              (* read w.shouldShutdown under the lock *)
| SReject (j : nat)             (* j.result <- ErrShutdown *)
| SDrain (j : nat)              (* for t := range j.tasks *)
| SGot (j : nat) (t : task)     (* w.sg.Add(1) *)
| SSend (j : nat) (t : task)    (* w.tasks <- t *)
| SWait (j : nat)               (* w.sg.Wait() *)
| SFinish (j : nat)             (* the critical section that delivers the result *)
| SAck                          (* the critical section after the loop *)
| SExit.

(** Program counter of a goroutine of [startWorker]. *)
Inductive worker_pc :=
| WSelect                       (* select { <-w.stopWorkers ; <-w.tasks } *)
| WStopping                     (* w.stoppedWorkers <- struct{}{} *)
| WStopped                      (* returned after confirming the stop *)
| WGot (t : task)               (* read w.err under the read lock *)
| WRun (t : task)               (* call the task *)
| WRecord (e : error)           (* the critical section that records the error *)
| WDone                         (* w.sg.Done() at the end of the case *)
| WSkip                         (* w.sg.Done() of the branch err != nil *)
| WReturned.                    (* returned from the branch err != nil *)

(** Program counter of the caller of [Stop]. *)
Inductive stop_pc :=
| StIdle                        (* Stop has not been called *)
| StClose                       (* close(w.queue) *)
| StWaitAck                     (* <-w.ackShutdown *)
| StCloseStop                   (* close(w.stopWorkers) *)
| StRecv (i : nat)              (* loop head, then <-w.stoppedWorkers *)
| StReturned.

(** [type Workers struct].  [maxJobs] is the capacity of [queue]; [sg] is the
    counter of the WaitGroup; [ackShutdown] and [stopWorkers] are only ever
    closed.  [heap] holds the jobs allocated so far. *)
Record Workers := mkWorkers {
  count : nat;
  maxJobs : nat;
  queue : list nat;
  queue_closed : bool;
  shouldShutdown : bool;
  triggeredShutdown : bool;
  err : option error;
  sg : nat;
  ackShutdown : bool;
  stopWorkers : bool;
  sched : sched_pc;
  workers : list worker_pc;
  stopper : stop_pc;
  heap : list Job;
  crashed : bool
}.

Definition set_queue (q : list nat) (s : Workers) : Workers :=
  mkWorkers (count s) (maxJobs s) q (queue_closed s) (shouldShutdown s)
    (triggeredShutdown s) (err s) (sg s) (ackShutdown s) (stopWorkers s)
    (sched s) (workers s) (stopper s) (heap s) (crashed s).
Definition close_queue (s : Workers) : Workers :=
  mkWorkers (count s) (maxJobs s) (queue s) true (shouldShutdown s)
    (triggeredShutdown s) (err s) (sg s) (ackShutdown s) (stopWorkers s)
    (sched s) (workers s) (stopper s) (heap s) (crashed s).
Definition set_shouldShutdown (s : Workers) : Workers :=
  mkWorkers (count s) (maxJobs s) (queue s) (queue_closed s) true
    (triggeredShutdown s) (err s) (sg s) (ackShutdown s) (stopWorkers s)
    (sched s) (workers s) (stopper s) (heap s) (crashed s).
Definition trigger_ack (s : Workers) : Workers :=
  mkWorkers (count s) (maxJobs s) (queue s) (queue_closed s) (shouldShutdown s)
    true (err s) (sg s) true (stopWorkers s)
    (sched s) (workers s) (stopper s) (heap s) (crashed s).
Definition set_err (e : option error) (s : Workers) : Workers :=
  mkWorkers (count s) (maxJobs s) (queue s) (queue_closed s) (shouldShutdown s)
    (triggeredShutdown s) e (sg s) (ackShutdown s) (stopWorkers s)
    (sched s) (workers s) (stopper s) (heap s) (crashed s).
Definition set_sg (n : nat) (s : Workers) : Workers :=
  mkWorkers (count s) (maxJobs s) (queue s) (queue_closed s) (shouldShutdown s)
    (triggeredShutdown s) (err s) n (ackShutdown s) (stopWorkers s)
    (sched s) (workers s) (stopper s) (heap s) (crashed s).
Definition close_stopWorkers (s : Workers) : Workers :=
  mkWorkers (count s) (maxJobs s) (queue s) (queue_closed s) (shouldShutdown s)
    (triggeredShutdown s) (err s) (sg s) (ackShutdown s) true
    (sched s) (workers s) (stopper s) (heap s) (crashed s).
Definition set_sched (pc : sched_pc) (s : Workers) : Workers :=
  mkWorkers (count s) (maxJobs s) (queue s) (queue_closed s) (shouldShutdown s)
    (triggeredShutdown s) (err s) (sg s) (ackShutdown s) (stopWorkers s)
    pc (workers s) (stopper s) (heap s) (crashed s).
Definition set_worker (w : nat) (pc : worker_pc) (s : Workers) : Workers :=
  mkWorkers (count s) (maxJobs s) (queue s) (queue_closed s) (shouldShutdown s)
    (triggeredShutdown s) (err s) (sg s) (ackShutdown s) (stopWorkers s)
    (sched s) (<[w := pc]> (workers s)) (stopper s) (heap s) (crashed s).
Definition set_stopper (pc : stop_pc) (s : Workers) : Workers :=
  mkWorkers (count s) (maxJobs s) (queue s) (queue_closed s) (shouldShutdown s)
    (triggeredShutdown s) (err s) (sg s) (ackShutdown s) (stopWorkers s)
    (sched s) (workers s) pc (heap s) (crashed s).
Definition set_heap (h : list Job) (s : Workers) : Workers :=
  mkWorkers (count s) (maxJobs s) (queue s) (queue_closed s) (shouldShutdown s)
    (triggeredShutdown s) (err s) (sg s) (ackShutdown s) (stopWorkers s)
    (sched s) (workers s) (stopper s) h (crashed s).
Definition set_job (j : nat) (J : Job) (s : Workers) : Workers :=
  set_heap (<[j := J]> (heap s)) s.
Definition panic (s : Workers) : Workers :=
  mkWorkers (count s) (maxJobs s) (queue s) (queue_closed s) (shouldShutdown s)
    (triggeredShutdown s) (err s) (sg s) (ackShutdown s) (stopWorkers s)
    (sched s) (workers s) (stopper s) (heap s) true.

(** ** Operations *)

(** [New]: the channels are open and empty, the flags unset, the scheduler and
    the [workers] workers are at the head of their loops. *)
Definition New (nworkers maxjobs : nat) : Workers :=
  mkWorkers nworkers maxjobs [] false false false None 0 false false
    SRange (replicate nworkers WSelect) StIdle [] false.

(** Tests on the scheduler's program counter and on buffers, used by the sends
    below. *)
Definition is_SRange (pc : sched_pc) : bool :=
  match pc with SRange => true | _ => false end.
Definition is_SDrain (j : nat) (pc : sched_pc) : bool :=
  match pc with SDrain j' => bool_decide (j' = j) | _ => false end.
Definition is_nil {A} (l : list A) : bool :=
  match l with [] => true | _ => false end.

(** A send on a channel of capacity [cap] holding [buf] proceeds when the
    buffer has room or when the (single) receiver is parked on the receive. *)
Definition can_send {A} (buf : list A) (cap : nat) (receiver_waiting : bool) : bool :=
  (length buf <? cap) || (is_nil buf && receiver_waiting).

(** One step of the goroutine of [processQueue] (lines 57-88), except the
    send on [w.tasks], which is [handoff]. *)
Definition processQueue (s : Workers) : option Workers :=
  match sched s with
  | SRange =>
      match queue s with
      | j :: q => Some (set_sched (SCheck j) (set_queue q s))
      | [] => if queue_closed s then Some (set_sched SAck s) else None
      end
  | SCheck j =>
      if shouldShutdown s then Some (set_sched (SReject j) s)
      else Some (set_sched (SDrain j) s)
  | SReject j =>
      J ← heap s !! j;
      if can_send (result J) 1 false
      then Some (set_sched SRange (set_job j (send_result (Some ErrShutdown) J) s))
      else None
  | SDrain j =>
      J ← heap s !! j;
      match tasks J with
      | t :: ts => Some (set_sched (SGot j t) (set_job j (set_tasks ts J) s))
      | [] => if tasks_closed J then Some (set_sched (SWait j) s) else None
      end
  | SGot j t => Some (set_sched (SSend j t) (set_sg (S (sg s)) s))
  | SSend _ _ => None
  | SWait j => if bool_decide (sg s = 0) then Some (set_sched (SFinish j) s) else None
  | SFinish j =>
      J ← heap s !! j;
      if completed J then Some (panic s)
      else
        let J1 := close_completed J in
        if can_send (result J1) 1 false
        then Some (set_sched SRange
                     (set_err None (set_job j (send_result (err s) J1) s)))
        else None
  | SAck =>
      if shouldShutdown s && negb (triggeredShutdown s)
      then if ackShutdown s then Some (panic s)
           else Some (set_sched SExit (trigger_ack s))
      else Some (set_sched SExit s)
  | SExit => None
  end.

(** [w.tasks <- t] of the scheduler meeting [case j := <-w.tasks] of worker
    [w]. *)
Definition handoff (w : nat) (s : Workers) : option Workers :=
  match sched s, workers s !! w with
  | SSend j t, Some WSelect => Some (set_sched (SDrain j) (set_worker w (WGot t) s))
  | _, _ => None
  end.

(** [w.sg.Done()]: a counter that would become negative panics. *)
Definition sg_Done (s : Workers) : Workers :=
  match sg s with 0 => panic s | S n => set_sg n s end.

(** One step of worker [w] (lines 94-119), except the two rendezvous. *)
Definition startWorker (w : nat) (s : Workers) : option Workers :=
  pc ← workers s !! w;
  match pc with
  | WSelect => if stopWorkers s then Some (set_worker w WStopping s) else None
  | WStopping => None
  | WStopped => None
  | WGot t =>
      match err s with
      | Some _ => Some (set_worker w WSkip s)
      | None => Some (set_worker w (WRun t) s)
      end
  | WRun t =>
      match t with
      | Some e => Some (set_worker w (WRecord e) s)
      | None => Some (set_worker w WDone s)
      end
  | WRecord e =>
      Some (set_worker w WDone
              (set_err (match err s with None => Some e | Some e0 => Some e0 end) s))
  | WDone => Some (set_worker w WSelect (sg_Done s))
  | WSkip => Some (set_worker w WReturned (sg_Done s))
  | WReturned => None
  end.

(** One step of the one call of [Stop] (lines 124-136), except the receives
    of the loop. *)
Definition Stop (s : Workers) : option Workers :=
  match stopper s with
  | StIdle => Some (set_stopper StClose (set_shouldShutdown s))
  | StClose =>
      if queue_closed s then Some (panic s)
      else Some (set_stopper StWaitAck (close_queue s))
  | StWaitAck => if ackShutdown s then Some (set_stopper StCloseStop s) else None
  | StCloseStop =>
      if stopWorkers s then Some (panic s)
      else Some (set_stopper (StRecv 0) (close_stopWorkers s))
  | StRecv i => if bool_decide (i < count s) then None else Some (set_stopper StReturned s)
  | StReturned => None
  end.

(** [<-w.stoppedWorkers] of [Stop] meeting the send of worker [w]. *)
Definition Stop_recv (w : nat) (s : Workers) : option Workers :=
  match stopper s, workers s !! w with
  | StRecv i, Some WStopping =>
      if bool_decide (i < count s)
      then Some (set_stopper (StRecv (S i)) (set_worker w WStopped s))
      else None
  | _, _ => None
  end.

(** [NewJob], lines 167-177: the flag is read under the lock; either the call
    returns [ErrShutdown] and no job, or it allocates a job and goes on to the
    send of line 178. *)
Definition NewJob_check (taskBacklog : nat) (s : Workers) : (nat + error) * Workers :=
  if shouldShutdown s then (inr ErrShutdown, s)
  else (inl (length (heap s)), set_heap (heap s ++ [fresh_job taskBacklog]) s).

(** [NewJob], line 178: [w.queue <- j], after which the call returns [j]. *)
Definition NewJob_send (j : nat) (s : Workers) : option Workers :=
  J ← heap s !! j;
  if admitted J then None
  else if queue_closed s then Some (panic s)
  else if can_send (queue s) (maxJobs s) (is_SRange (sched s))
  then Some (set_queue (queue s ++ [j]) (set_job j (set_admitted J) s))
  else None.

(** [Job.Go]: [j.tasks <- f]. *)
Definition Go (j : nat) (f : task) (s : Workers) : option Workers :=
  J ← heap s !! j;
  if negb (admitted J) then None
  else if tasks_closed J then Some (panic s)
  else if can_send (tasks J) (tasks_cap J) (is_SDrain j (sched s))
  then Some (set_job j (push_task f J) s)
  else None.

(** [Job.Done]: [close(j.tasks)]; with a callback, a goroutine is started that
    waits for [j.completed]. *)
Definition Done (j : nat) (f : bool) (s : Workers) : option Workers :=
  J ← heap s !! j;
  if negb (admitted J) then None
  else if tasks_closed J then Some (panic s)
  else Some (set_job j (close_tasks (if f then CbWaiting else callback J) J) s).

(** The goroutine of [Job.Done]: [<-j.completed; f()]. *)
Definition Done_callback (j : nat) (s : Workers) : option Workers :=
  J ← heap s !! j;
  match callback J with
  | CbWaiting => if completed J then Some (set_job j (set_callback CbCalled J) s) else None
  | _ => None
  end.

(** [Job.Wait]: [return <-j.result]. *)
Definition Wait (j : nat) (s : Workers) : option (option error * Workers) :=
  J ← heap s !! j;
  if negb (admitted J) then None
  else match result J with
       | r :: rs => Some (r, set_job j (set_result rs J) s)
       | [] => None
       end.

(** ** Interleavings *)

Inductive action :=
| AprocessQueue
| Ahandoff (w : nat)
| AstartWorker (w : nat)
| AStop
| AStop_recv (w : nat)
| ANewJob (taskBacklog : nat)
| ANewJob_send (j : nat)
| AGo (j : nat) (f : task)
| ADone (j : nat) (f : bool)
| ADone_callback (j : nat)
| AWait (j : nat).

Definition do_step (a : action) (s : Workers) : option Workers :=
  if crashed s then None
  else match a with
       | AprocessQueue => processQueue s
       | Ahandoff w => handoff w s
       | AstartWorker w => startWorker w s
       | AStop => Stop s
       | AStop_recv w => Stop_recv w s
       | ANewJob b => Some (snd (NewJob_check b s))
       | ANewJob_send j => NewJob_send j s
       | AGo j f => Go j f s
       | ADone j f => Done j f s
       | ADone_callback j => Done_callback j s
       | AWait j => snd <$> Wait j s
       end.

Fixpoint run (acts : list action) (s : Workers) : option Workers :=
  match acts with
  | [] => Some s
  | a :: acts' => s' ← do_step a s; run acts' s'
  end.

(** A state is reachable when some interleaving leads to it from a new pool. *)
Definition reachable (s : Workers) : Prop :=
  ∃ nworkers maxjobs acts, run acts (New nworkers maxjobs) = Some s.

(** ** Program counters, invariants and trace properties *)

(** The job the scheduler has dequeued and not yet resolved. *)
Definition sched_job (pc : sched_pc) : option nat :=
  match pc with
  | SCheck j | SReject j | SDrain j | SGot j _ | SSend j _ | SWait j | SFinish j => Some j
  | SRange | SAck | SExit => None
  end.

(** The job whose tasks the scheduler is executing (steps 2 to 5 of the loop
    body, lines 68-79). *)
Definition draining (pc : sched_pc) : option nat :=
  match pc with
  | SDrain j | SGot j _ | SSend j _ | SWait j | SFinish j => Some j
  | _ => None
  end.

(** The scheduler is blocked on [w.tasks <- t], after [w.sg.Add(1)]. *)
Definition sending (pc : sched_pc) : bool :=
  match pc with SSend _ _ => true | _ => false end.

(** The task the scheduler has received from [j.tasks] and not yet handed over. *)
Definition sched_held (pc : sched_pc) : option task :=
  match pc with SGot _ t | SSend _ t => Some t | _ => None end.

(** The goroutine of [processQueue] has ended. *)
Definition is_SExit (pc : sched_pc) : bool :=
  match pc with SExit => true | _ => false end.

(** The scheduler has left [for j := range w.queue]. *)
Definition after_loop (pc : sched_pc) : bool :=
  match pc with SAck | SExit => true | _ => false end.

(** A worker between the receive of a task and its [w.sg.Done()]. *)
Definition is_active (pc : worker_pc) : bool :=
  match pc with
  | WGot _ | WRun _ | WRecord _ | WDone | WSkip => true
  | _ => false
  end.

(** The worker has sent its confirmation on [w.stoppedWorkers]. *)
Definition is_stopped (pc : worker_pc) : bool :=
  match pc with WStopped => true | _ => false end.

(** The worker has taken the case [<-w.stopWorkers] of its select. *)
Definition saw_stop (pc : worker_pc) : bool :=
  match pc with WStopping | WStopped => true | _ => false end.

(** The task, or the error a task returned, that a worker holds. *)
Definition held (pc : worker_pc) : option task :=
  match pc with
  | WGot t | WRun t => Some t
  | WRecord e => Some (Some e)
  | _ => None
  end.

(** How far [Stop] has got. *)
Definition stop_phase (pc : stop_pc) : nat :=
  match pc with
  | StIdle => 0 | StClose => 1 | StWaitAck => 2 | StCloseStop => 3
  | StRecv _ => 4 | StReturned => 5
  end.

(** The number of elements of [l] that satisfy [p]. *)
Fixpoint count_if {A} (p : A → bool) (l : list A) : nat :=
  match l with
  | [] => 0
  | x :: l' => (if p x then 1 else 0) + count_if p l'
  end.

(** A job that is in the admission queue or in the hands of the scheduler. *)
Definition pending (s : Workers) (j : nat) : Prop :=
  j ∈ queue s ∨ sched_job (sched s) = Some j.

(** The shutdown handshake: the flags and the closed channels follow the
    progress of [Stop] and of the scheduler; [Stop] has counted exactly the
    workers that confirmed. *)
Record inv_shutdown (s : Workers) : Prop := {
  sh_len : length (workers s) = count s;
  sh_flag : shouldShutdown s = bool_decide (1 ≤ stop_phase (stopper s));
  sh_closed : queue_closed s = bool_decide (2 ≤ stop_phase (stopper s));
  sh_trig : triggeredShutdown s = ackShutdown s;
  sh_ack : ackShutdown s = is_SExit (sched s);
  sh_end : after_loop (sched s) = true → queue s = [] ∧ queue_closed s = true;
  sh_past : 3 ≤ stop_phase (stopper s) → ackShutdown s = true;
  sh_sig : stopWorkers s = bool_decide (4 ≤ stop_phase (stopper s));
  sh_wrk : ∀ w pc, workers s !! w = Some pc → saw_stop pc = true → stopWorkers s = true;
  sh_cnt : ∀ i, stopper s = StRecv i → count_if is_stopped (workers s) = i;
  sh_ret : stopper s = StReturned → count_if is_stopped (workers s) = count s
}.

(** The WaitGroup counts the workers that hold a task, plus the task the
    scheduler is handing over; between two jobs the counter is zero and the
    error slot is empty. *)
Record inv_sg (s : Workers) : Prop := {
  sg_cnt : sg s = count_if is_active (workers s) + (if sending (sched s) then 1 else 0);
  sg_idle : draining (sched s) = None → err s = None ∧ sg s = 0;
  sg_fin : ∀ j, sched s = SFinish j → sg s = 0
}.

(** What the pool guarantees about the job in cell [j] of the heap. *)
Record job_ok (s : Workers) (j : nat) (J : Job) : Prop := {
  jo_once : length (delivered J) ≤ 1;
  jo_buf : result J = delivered J ∨ result J = [];
  jo_new : admitted J = false →
           ¬ pending s j ∧ delivered J = [] ∧ completed J = false ∧
           pushed J = [] ∧ tasks_closed J = false;
  jo_pend : pending s j → delivered J = [] ∧ completed J = false;
  jo_res : admitted J = true → ¬ pending s j →
           (delivered J = [Some ErrShutdown] ∧ completed J = false) ∨
           (∃ r, delivered J = [r] ∧ completed J = true)
}.

(** The queue holds distinct, allocated jobs, none of which is the job of the
    scheduler; every allocated job satisfies [job_ok]. *)
Record inv_jobs (s : Workers) : Prop := {
  jb_nodup : NoDup (queue s);
  jb_sched : ∀ j, sched_job (sched s) = Some j → j ∉ queue s;
  jb_alloc : ∀ j, pending s j → is_Some (heap s !! j);
  jb_ok : ∀ j J, heap s !! j = Some J → job_ok s j J
}.

(** The values that can still reach the error slot: the content of the slot,
    what the workers hold and what the scheduler is about to hand over. *)
Definition live (s : Workers) (t : task) : Prop :=
  (∃ e, err s = Some e ∧ t = Some e) ∨
  (∃ w pc, workers s !! w = Some pc ∧ held pc = Some t) ∨
  sched_held (sched s) = Some t.

(** Every value in flight comes from a task pushed to the job that is being
    executed, and so does the outcome of an executed job. *)
Record inv_tasks (s : Workers) : Prop := {
  tk_buf : ∀ j J t, heap s !! j = Some J → t ∈ tasks J → t ∈ pushed J;
  tk_cur : ∀ j J t, draining (sched s) = Some j → heap s !! j = Some J →
           live s t → t ∈ pushed J;
  tk_out : ∀ j J r, heap s !! j = Some J → completed J = true →
           r ∈ delivered J → r = None ∨ r ∈ pushed J
}.

(** The scheduler holds a task that the WaitGroup does not count yet. *)
Definition got (pc : sched_pc) : nat :=
  match pc with SGot _ _ => 1 | _ => 0 end.

(** The tasks of the current job that are buffered, in the hands of the
    scheduler or counted by the WaitGroup were all pushed by the caller. *)
Record inv_flight (s : Workers) : Prop := {
  fl_buf : ∀ j J, heap s !! j = Some J → length (tasks J) ≤ length (pushed J);
  fl_cur : ∀ j J, draining (sched s) = Some j → heap s !! j = Some J →
           sg s + length (tasks J) + got (sched s) ≤ length (pushed J)
}.

(** The invariant of the reachable states. *)
Record Inv (s : Workers) : Prop := {
  Inv_shutdown : inv_shutdown s;
  Inv_sg : inv_sg s;
  Inv_jobs : inv_jobs s;
  Inv_tasks : inv_tasks s;
  Inv_flight : inv_flight s
}.

(** The moves of the scheduler's program counter. *)
Definition sched_next (s : Workers) (pc pc' : sched_pc) : Prop :=
  match pc, pc' with
  | SRange, SCheck j => ∃ q, queue s = j :: q
  | SRange, SAck => queue s = [] ∧ queue_closed s = true
  | SCheck j, SReject j' => j' = j ∧ shouldShutdown s = true
  | SCheck j, SDrain j' => j' = j ∧ shouldShutdown s = false
  | SReject j, SRange => True
  | SDrain j, SGot j' _ => j' = j
  | SDrain j, SWait j' => j' = j
  | SGot j t, SSend j' t' => j' = j ∧ t' = t
  | SSend j _, SDrain j' => j' = j
  | SWait j, SFinish j' => j' = j ∧ sg s = 0
  | SFinish j, SRange => True
  | SAck, SExit => True
  | _, _ => False
  end.

(** How the job in cell [j] evolves in a step from [s] to [s']. *)
Record job_next (s s' : Workers) (j : nat) (J J' : Job) : Prop := {
  jn_adm : admitted J = true → admitted J' = true;
  jn_closed : tasks_closed J = true → tasks_closed J' = true ∧ pushed J' = pushed J;
  jn_compl : completed J = true → completed J' = true;
  jn_deliv :
    (delivered J' = delivered J ∧ completed J' = completed J ∧
     (sched_job (sched s) = Some j → sched_job (sched s') = Some j)) ∨
    (sched s = SReject j ∧ delivered J' = delivered J ++ [Some ErrShutdown] ∧
     completed J' = completed J) ∨
    (sched s = SFinish j ∧ delivered J' = delivered J ++ [err s] ∧
     completed J' = true)
}.

(** The error [e0] is in the slot while job [j] is executed, or it has become
    the outcome of [j]. *)
Definition first_error (j : nat) (e0 : error) (s : Workers) : Prop :=
  ∃ J, heap s !! j = Some J ∧
    ((draining (sched s) = Some j ∧ err s = Some e0 ∧ delivered J = []) ∨
     delivered J = [Some e0]).

(** With the shutdown flag set, job [j] is on its way to the shutdown branch of
    the scheduler, or has been resolved there. *)
Definition rejected (j : nat) (s : Workers) : Prop :=
  shouldShutdown s = true ∧
  ∃ J, heap s !! j = Some J ∧ completed J = false ∧
    (((j ∈ queue s ∨ sched s = SCheck j ∨ sched s = SReject j) ∧ delivered J = []) ∨
     (admitted J = true ∧ delivered J = [Some ErrShutdown])).

(** Job [j] was finalized without a task; it is being executed with no outcome
    yet, or its completion signal has fired. *)
Definition empty_job (j : nat) (s : Workers) : Prop :=
  ∃ J, heap s !! j = Some J ∧ pushed J = [] ∧ tasks_closed J = true ∧
    ((draining (sched s) = Some j ∧ delivered J = []) ∨ completed J = true).

(** Job [j1] is ahead of job [j2]: both wait in the queue in that order, or
    the scheduler holds [j1] while [j2] waits, or [j1] has its outcome. *)
Definition ahead (j1 j2 : nat) (s : Workers) : Prop :=
  (∃ q1 q2 q3, queue s = q1 ++ j1 :: q2 ++ j2 :: q3) ∨
  (sched_job (sched s) = Some j1 ∧ j2 ∈ queue s) ∨
  (∃ J1, heap s !! j1 = Some J1 ∧ delivered J1 ≠ []).

(** The outcome of job [j] has been received. *)
Definition waited (j : nat) (s : Workers) : Prop :=
  ∃ J, heap s !! j = Some J ∧ result J = [] ∧ delivered J ≠ [].

(** Finalization, callback and buffer of the job in cell [j]: the callback
    runs after the completion signal and is registered by [Done]; a job is
    completed, and waited for, only with its task channel closed and empty; the
    channel holds at most [tasks_cap] tasks, or one task handed to the
    scheduler parked on the receive. *)
Record job_final (s : Workers) (j : nat) (J : Job) : Prop := {
  jf_called : callback J = CbCalled → completed J = true;
  jf_reg : callback J ≠ CbNone → tasks_closed J = true;
  jf_compl : completed J = true → tasks_closed J = true ∧ tasks J = [];
  jf_wait : sched s = SWait j ∨ sched s = SFinish j →
            tasks_closed J = true ∧ tasks J = [];
  jf_cap : length (tasks J) ≤ tasks_cap J ∨
           (length (tasks J) = 1 ∧ sched s = SDrain j)
}.

(** The admission queue holds at most [maxJobs] jobs, or one job handed to the
    scheduler parked on the receive; every job satisfies [job_final]. *)
Record inv_buffers (s : Workers) : Prop := {
  bf_queue : length (queue s) ≤ maxJobs s ∨
             (length (queue s) = 1 ∧ sched s = SRange);
  bf_jobs : ∀ j J, heap s !! j = Some J → job_final s j J
}.

(** The task of job [j] that the scheduler holds. *)
Definition sched_holds (j : nat) (pc : sched_pc) : option task :=
  match pc with
  | SGot j' t | SSend j' t => if bool_decide (j' = j) then Some t else None
  | _ => None
  end.

(** In a pool without workers the scheduler keeps the first task of a job
    forever: the task channel of job [j] still holds every pushed task, but
    the one the scheduler holds; a job is waited for or completed only if no
    task was pushed to it. *)
Record job_unserved (s : Workers) (j : nat) (J : Job) : Prop := {
  ju_tasks : pushed J = match sched_holds j (sched s) with
                        | Some t => t :: tasks J
                        | None => tasks J
                        end;
  ju_done : sched s = SWait j ∨ sched s = SFinish j ∨ completed J = true →
            pushed J = [] ∧ tasks_closed J = true
}.

(** The invariant of a pool built with zero workers. *)
Record inv_no_worker (s : Workers) : Prop := {
  nw_workers : workers s = [];
  nw_jobs : ∀ j J, heap s !! j = Some J → job_unserved s j J
}.

(** A failure of the job in execution that can still reach its outcome: the
    error slot is occupied, or a worker or the scheduler holds the failing
    task (or its error). *)
Definition failing (s : Workers) (e : error) : Prop :=
  err s ≠ None ∨
  (∃ w pc, workers s !! w = Some pc ∧ held pc = Some (Some e)) ∨
  sched_held (sched s) = Some (Some e).

(** No failure of job [j] is lost: a failing task pushed to a job that is not
    completed is still in its task channel or on its way to the error slot; a
    completed job that was pushed a failing task has an error as outcome. *)
Record job_failures (s : Workers) (j : nat) (J : Job) : Prop := {
  jx_open : completed J = false → ∀ e, Some e ∈ pushed J →
            Some e ∈ tasks J ∨ (draining (sched s) = Some j ∧ failing s e);
  jx_done : completed J = true → ∀ e, Some e ∈ pushed J →
            ∃ e', delivered J = [Some e']
}.

Definition inv_failures (s : Workers) : Prop :=
  ∀ j J, heap s !! j = Some J → job_failures s j J.

(** * Proofs *)

(** ** Counting workers *)

Lemma count_if_insert {A} (p : A → bool) (l : list A) i x y :
  l !! i = Some x →
  count_if p (<[i := y]> l) + (if p x then 1 else 0)
  = count_if p l + (if p y then 1 else 0).
Proof.
  revert i. induction l as [|z l IH]; intros [|i] Hi; simplify_eq/=.
  - lia.
  - specialize (IH _ Hi). lia.
Qed.

Lemma count_if_le {A} (p : A → bool) (l : list A) : count_if p l ≤ length l.
Proof. induction l as [|z l IH]; simpl; [lia | destruct (p z); lia]. Qed.

Lemma count_if_full {A} (p : A → bool) (l : list A) i x :
  count_if p l = length l → l !! i = Some x → p x = true.
Proof.
  revert i. induction l as [|z l IH]; intros [|i] Hc Hi; simplify_eq/=.
  - destruct (p x); [done|]. pose proof (count_if_le p l). lia.
  - apply (IH i); [|done]. pose proof (count_if_le p l). destruct (p z); lia.
Qed.

Lemma count_if_replicate {A} (p : A → bool) n x :
  p x = false → count_if p (replicate n x) = 0.
Proof. intros Hx. induction n as [|n IH]; simpl; [done | by rewrite Hx, IH]. Qed.

Lemma count_if_zero {A} (p : A → bool) (l : list A) :
  (∀ i x, l !! i = Some x → p x = false) → count_if p l = 0.
Proof.
  induction l as [|z l IH]; intros Hp; simpl; [done|].
  rewrite (Hp 0 z eq_refl), IH; [done|]. intros i x Hi. apply (Hp (S i) x Hi).
Qed.

Lemma count_if_pos {A} (p : A → bool) (l : list A) i x :
  l !! i = Some x → p x = true → 1 ≤ count_if p l.
Proof.
  revert i. induction l as [|z l IH]; intros [|i] Hi Hp; simplify_eq/=.
  - rewrite Hp. lia.
  - specialize (IH _ Hi Hp). lia.
Qed.

(** ** Tactics *)

(** Case analysis on a step [H : do_step a s = Some s']: one goal per enabled
    branch of the operations, with the equations that select the branch. *)
Ltac step_cases H :=
  unfold do_step in H;
  destruct (crashed _) eqn:?; [discriminate H|];
  match type of H with
  | match ?a with _ => _ end = _ => destruct a
  end;
  unfold processQueue, handoff, startWorker, Stop, Stop_recv, NewJob_check,
    NewJob_send, Go, Done, Done_callback, Wait, sg_Done in H;
  simpl in H;
  repeat match type of H with
         | context [mbind _ ?x] =>
             destruct x eqn:?; simpl in H; try discriminate H
         | context [match ?x with _ => _ end] =>
             destruct x eqn:?; simpl in H; try discriminate H
         end;
  simplify_eq.

(** Rewrite the goal with the equations in the context. *)
Ltac use_eqs := repeat match goal with H : ?x = _ |- context [?x] => rewrite H end.


(** The effect on [count_if p] of the update of one worker. *)
Ltac count_insert p :=
  match goal with
  | H : workers ?s !! ?w = Some ?x |- context [count_if p (<[?w := ?y]> (workers ?s))] =>
      let Hc := fresh "Hc" in
      pose proof (count_if_insert p (workers s) w x y H) as Hc; simpl in Hc
  end.

(** A worker that holds a task is counted by the WaitGroup. *)
Ltac active_worker :=
  match goal with
  | H : workers ?s !! ?w = Some ?x |- _ =>
      let Hc := fresh "Hpos" in
      pose proof (count_if_pos is_active (workers s) w x H eq_refl) as Hc
  end.

(** ** The shutdown handshake *)

Lemma inv_shutdown_New n m : inv_shutdown (New n m).
Proof.
  constructor; simpl; try done.
  - by rewrite length_replicate.
  - lia.
  - intros w pc [-> _]%lookup_replicate. done.
Qed.

Lemma inv_shutdown_step a s s' :
  inv_shutdown s → do_step a s = Some s' → inv_shutdown s'.
Proof.
  intros [] H. step_cases H.
  all: constructor; simpl in *; try done; rewrite ?length_insert; try done.
  all: try (intros w0 pc0 [(-> & <- & _) | [_ ?]]%list_lookup_insert_Some; by eauto).
  all: try (use_eqs; by eauto with lia).
  all: try (intros i' Hi; specialize (sh_cnt0 i' Hi); count_insert is_stopped; lia).
  all: try (intros Hr; specialize (sh_ret0 Hr); count_insert is_stopped; lia).
  - destruct (sh_end0 eq_refl) as [_ Hc].
    rewrite sh_trig0, sh_ack0, sh_flag0 in Heqb0. rewrite Hc in sh_closed0.
    destruct (stopper s); simplify_eq/=.
  - intros Hl. by destruct (sh_end0 Hl).
  - intros i [= <-]. apply count_if_zero. intros w pc Hw.
    destruct pc; try done. by rewrite (sh_wrk0 w WStopped Hw eq_refl) in *.
  - intros _. specialize (sh_cnt0 i eq_refl).
    pose proof (count_if_le is_stopped (workers s)).
    apply bool_decide_eq_false in Heqb0. lia.
  - intros i0 [= <-]. specialize (sh_cnt0 i eq_refl).
    count_insert is_stopped. lia.
  - intros Hl. destruct (sh_end0 Hl). by rewrite Heqb1.
  - intros Hl. by destruct (sh_end0 Hl).
Qed.

(** ** The WaitGroup and the error slot *)

Lemma inv_sg_New n m : inv_sg (New n m).
Proof.
  constructor; simpl; try done.
  by rewrite count_if_replicate.
Qed.

Lemma inv_sg_step a s s' :
  inv_sg s → do_step a s = Some s' → inv_sg s'.
Proof.
  intros [] H. step_cases H.
  all: constructor; simpl in *; try done.
  all: try (try count_insert is_active; try active_worker; intros; simplify_eq/=; lia).
  all: try (use_eqs; simpl; by eauto).
  all: try (apply bool_decide_eq_true in Heqb0; by eauto).
  all: try (intros Hd; destruct (sg_idle0 Hd); active_worker; split; [done || lia ..]).
  all: try (intros j' Hj; specialize (sg_fin0 j' Hj); active_worker; lia).
  - intros. by apply (sg_fin0 j).
  - intros _. split; [done|]. by apply (sg_fin0 j).
  - intros _. by apply sg_idle0.
Qed.

(** ** Jobs: admission, resolution, delivery *)

Lemma job_ok_ext s s' j J :
  (pending s j ↔ pending s' j) → job_ok s j J → job_ok s' j J.
Proof. intros Hp []. constructor; rewrite <-?Hp; done. Qed.

Lemma inv_jobs_New n m : inv_jobs (New n m).
Proof.
  constructor; simpl; try done.
  - constructor.
  - intros j [Hq|]; [by apply elem_of_nil in Hq | done].
Qed.

(** Steps that leave the queue, the scheduler's job and the heap alone. *)
Lemma inv_jobs_frame s s' :
  queue s' = queue s → sched_job (sched s') = sched_job (sched s) →
  heap s' = heap s → inv_jobs s → inv_jobs s'.
Proof.
  intros Hq Hs Hh [].
  assert (Hp : ∀ j, pending s j ↔ pending s' j)
    by (intros j; unfold pending; by rewrite Hq, Hs).
  constructor.
  - by rewrite Hq.
  - intros j. rewrite Hq, Hs. auto.
  - intros j. rewrite <-Hp, Hh. auto.
  - intros j J. rewrite Hh. intros HJ. eapply job_ok_ext; eauto.
Qed.

(** Steps that change one job without touching what [job_ok] speaks of. *)
Lemma inv_jobs_update s s' j J J' :
  heap s !! j = Some J → heap s' = <[j := J']> (heap s) →
  queue s' = queue s → sched_job (sched s') = sched_job (sched s) →
  delivered J' = delivered J → result J' = result J →
  admitted J' = admitted J → completed J' = completed J →
  (admitted J = false → pushed J' = pushed J ∧ tasks_closed J' = tasks_closed J) →
  inv_jobs s → inv_jobs s'.
Proof.
  intros HJ Hh Hq Hs Hd Hr Ha Hc Hn [].
  assert (Hp : ∀ j, pending s j ↔ pending s' j)
    by (intros j0; unfold pending; by rewrite Hq, Hs).
  constructor.
  - by rewrite Hq.
  - intros j0. rewrite Hq, Hs. auto.
  - intros j0. rewrite <-Hp, Hh, list_lookup_insert_is_Some. auto.
  - intros j0 J0. rewrite Hh.
    intros [(<- & <- & _) | [_ HJ0]]%list_lookup_insert_Some.
    + destruct (jb_ok0 _ _ HJ). constructor; rewrite <-?Hp, ?Hd, ?Hr, ?Ha, ?Hc; auto.
      intros Hf. destruct (Hn Hf) as [-> ->]. auto.
    + eapply job_ok_ext; eauto.
Qed.

(** [for j := range w.queue] receives the head of the queue. *)
Lemma inv_jobs_dequeue s s' j q :
  queue s = j :: q → sched_job (sched s) = None →
  queue s' = q → sched_job (sched s') = Some j → heap s' = heap s →
  inv_jobs s → inv_jobs s'.
Proof.
  intros Hq Hs Hq' Hs' Hh [].
  rewrite Hq in jb_nodup0. apply NoDup_cons in jb_nodup0 as [Hj Hnd].
  assert (Hp : ∀ j0, pending s j0 ↔ pending s' j0).
  { intros j0. unfold pending. rewrite Hq, Hs, Hq', Hs', elem_of_cons.
    intuition congruence. }
  constructor.
  - by rewrite Hq'.
  - intros j0. rewrite Hq', Hs'. by intros [= <-].
  - intros j0. rewrite <-Hp, Hh. auto.
  - intros j0 J0. rewrite Hh. intros HJ0. eapply job_ok_ext; eauto.
Qed.

(** The scheduler sends the outcome of its job on [j.result] and goes back to
    the head of its loop: from the shutdown branch ([c] is the old value of
    [completed]) or at the end of the body, after [close(j.completed)]. *)
Lemma inv_jobs_resolve s s' j J J' r :
  sched_job (sched s) = Some j → heap s !! j = Some J →
  can_send (result J) 1 false = true →
  queue s' = queue s → sched_job (sched s') = None →
  heap s' = <[j := J']> (heap s) →
  delivered J' = delivered J ++ [r] → result J' = result J ++ [r] →
  admitted J' = admitted J →
  (completed J' = true ∨ (r = Some ErrShutdown ∧ completed J' = completed J)) →
  inv_jobs s → inv_jobs s'.
Proof.
  intros Hs HJ Hcs Hq Hs' Hh Hd Hr Ha Hc [].
  assert (Hp : ∀ j0, j0 ≠ j → pending s j0 ↔ pending s' j0).
  { intros j0 Hne. unfold pending. rewrite Hq, Hs, Hs'. intuition congruence. }
  assert (Hpj : pending s j) by (right; done).
  assert (Hnp : ¬ pending s' j).
  { unfold pending. rewrite Hq, Hs'. intros [Hin|]; [|done]. by apply (jb_sched0 j). }
  destruct (jb_ok0 _ _ HJ) as [Ho Hb Hn Hpe Hre].
  destruct (Hpe Hpj) as [HdJ HcJ].
  assert (HrJ : result J = []).
  { destruct Hb as [->|]; done. }
  constructor.
  - by rewrite Hq.
  - intros j0. by rewrite Hs'.
  - intros j0 Hj0. rewrite Hh, list_lookup_insert_is_Some.
    destruct (decide (j0 = j)) as [->|Hne]; [eauto | apply jb_alloc0, Hp; auto].
  - intros j0 J0. rewrite Hh.
    intros [(<- & <- & _) | [Hne HJ0]]%list_lookup_insert_Some.
    + constructor; rewrite ?Hd, ?Hr, ?Ha, ?HdJ, ?HrJ; simpl; auto.
      * intros Hf. destruct (Hn Hf) as [Hx _]. done.
      * intros; done.
      * intros _ _. destruct Hc as [Hc | [-> Hc]]; [right; eauto|left].
        by rewrite Hc.
    + eapply job_ok_ext; [apply Hp; auto | eauto].
Qed.

(** [NewJob] allocates a job. *)
Lemma inv_jobs_alloc s s' b :
  queue s' = queue s → sched (s') = sched s →
  heap s' = heap s ++ [fresh_job b] → inv_jobs s → inv_jobs s'.
Proof.
  intros Hq Hs Hh [].
  assert (Hp : ∀ j, pending s j ↔ pending s' j)
    by (intros j; unfold pending; by rewrite Hq, Hs).
  constructor.
  - by rewrite Hq.
  - intros j. rewrite Hq, Hs. auto.
  - intros j. rewrite <-Hp, Hh. intros [J HJ]%jb_alloc0.
    exists J. by apply lookup_app_l_Some.
  - intros j J. rewrite Hh. intros [HJ | [Hlen HJ]]%lookup_app_Some.
    + eapply job_ok_ext; eauto.
    + destruct (j - length (heap s)) as [|k] eqn:Hk; simplify_eq/=.
      assert (j = length (heap s)) as -> by lia.
      constructor; simpl; auto; try done.
      intros _. split; [|done]. rewrite <-Hp. intros [J HJ]%jb_alloc0.
      apply lookup_lt_Some in HJ. lia.
Qed.

(** [NewJob] sends the job on [w.queue]. *)
Lemma inv_jobs_admit s s' j J J' :
  heap s !! j = Some J → admitted J = false →
  queue s' = queue s ++ [j] → sched s' = sched s →
  heap s' = <[j := J']> (heap s) →
  delivered J' = delivered J → result J' = result J →
  admitted J' = true → completed J' = completed J →
  inv_jobs s → inv_jobs s'.
Proof.
  intros HJ Ha Hq Hs Hh Hd Hr Ha' Hc [].
  destruct (jb_ok0 _ _ HJ) as [Ho Hb Hn Hpe Hre].
  destruct (Hn Ha) as (Hnp & HdJ & HcJ & _).
  assert (Hp : ∀ j0, j0 ≠ j → pending s j0 ↔ pending s' j0).
  { intros j0 Hne. unfold pending. rewrite Hq, Hs, elem_of_app, list_elem_of_singleton.
    intuition congruence. }
  constructor.
  - rewrite Hq. apply NoDup_app. split; [done|]. split; [|apply NoDup_singleton].
    intros x Hx ->%list_elem_of_singleton. apply Hnp. by left.
  - intros j0. rewrite Hq, Hs. intros Hj0.
    rewrite elem_of_app, list_elem_of_singleton. intros [Hin | ->].
    + by apply (jb_sched0 j0).
    + apply Hnp. by right.
  - intros j0 Hj0. rewrite Hh, list_lookup_insert_is_Some.
    destruct (decide (j0 = j)) as [->|Hne]; [eauto | apply jb_alloc0, Hp; auto].
  - intros j0 J0. rewrite Hh.
    intros [(<- & <- & _) | [Hne HJ0]]%list_lookup_insert_Some.
    + constructor; rewrite ?Hd, ?Hr, ?Ha', ?Hc; auto; try done.
      intros _ []. unfold pending. rewrite Hq, elem_of_app, list_elem_of_singleton. auto.
    + eapply job_ok_ext; [apply Hp; auto | eauto].
Qed.

(** [Job.Wait] receives from [j.result]. *)
Lemma inv_jobs_wait s s' j J J' r rs :
  heap s !! j = Some J → result J = r :: rs →
  queue s' = queue s → sched s' = sched s →
  heap s' = <[j := J']> (heap s) →
  delivered J' = delivered J → result J' = rs →
  admitted J' = admitted J → completed J' = completed J →
  pushed J' = pushed J → tasks_closed J' = tasks_closed J →
  inv_jobs s → inv_jobs s'.
Proof.
  intros HJ HrJ Hq Hs Hh Hd Hr Ha Hc Hpu Htc [].
  assert (Hp : ∀ j, pending s j ↔ pending s' j)
    by (intros j0; unfold pending; by rewrite Hq, Hs).
  constructor.
  - by rewrite Hq.
  - intros j0. rewrite Hq, Hs. auto.
  - intros j0. rewrite <-Hp, Hh, list_lookup_insert_is_Some. auto.
  - intros j0 J0. rewrite Hh.
    intros [(<- & <- & _) | [_ HJ0]]%list_lookup_insert_Some.
    + destruct (jb_ok0 _ _ HJ). constructor; rewrite <-?Hp, ?Hd, ?Ha, ?Hc, ?Hpu, ?Htc; auto.
      right. rewrite Hr. destruct jo_buf0 as [Hb|Hb]; [|by rewrite Hb in HrJ].
      rewrite HrJ in Hb. rewrite <-Hb in jo_once0. simpl in jo_once0.
      destruct rs; [done | simpl in *; lia].
    + eapply job_ok_ext; eauto.
Qed.

Lemma inv_jobs_step a s s' :
  inv_jobs s → do_step a s = Some s' → inv_jobs s'.
Proof.
  intros Hinv H. step_cases H; try done.
  all: try (by apply (inv_jobs_frame s); [simpl; use_eqs; done ..|]).
  all: try (by eapply (inv_jobs_update s); [eassumption | simpl; use_eqs; done ..|]).
  - eapply (inv_jobs_dequeue s); eauto. by rewrite Heqs0.
  - eapply (inv_jobs_resolve s); eauto; simpl; auto; by rewrite Heqs0.
  - eapply (inv_jobs_resolve s); eauto; simpl; auto; by rewrite Heqs0.
  - by eapply (inv_jobs_alloc s).
  - by eapply (inv_jobs_admit s).
  - apply negb_false_iff in Heqb0.
    eapply (inv_jobs_update s); eauto; simpl; try done; by rewrite Heqb0.
  - apply negb_false_iff in Heqb0.
    eapply (inv_jobs_update s); eauto; simpl; try done; by rewrite Heqb0.
  - apply negb_false_iff in Heqb0.
    eapply (inv_jobs_update s); eauto; simpl; try done; by rewrite Heqb0.
  - by eapply (inv_jobs_wait s).
Qed.

(** ** Provenance of the values in flight *)

Lemma inv_tasks_New n m : inv_tasks (New n m).
Proof. constructor; simpl; done. Qed.

Lemma held_active pc t : held pc = Some t → is_active pc = true.
Proof. by destruct pc. Qed.

(** Between two jobs nothing is in flight. *)
Lemma idle_not_live s t :
  inv_sg s → draining (sched s) = None → ¬ live s t.
Proof.
  intros [] Hd. destruct (sg_idle0 Hd) as [He Hs].
  intros [(e & Hx & _) | [(w & pc & Hw & Hh) | Hh]].
  - congruence.
  - pose proof (count_if_pos is_active _ _ _ Hw (held_active _ _ Hh)). lia.
  - destruct (sched s); done.
Qed.

Lemma inv_tasks_frame s s' :
  heap s' = heap s →
  (draining (sched s') = None ∨ draining (sched s') = draining (sched s)) →
  (∀ t, live s' t → live s t) →
  inv_tasks s → inv_tasks s'.
Proof.
  intros Hh Hd Hl []. constructor; rewrite Hh; [done| |done].
  intros j J t Hj HJ Ht. destruct Hd as [Hd|Hd]; [congruence|].
  rewrite Hd in Hj. eauto.
Qed.

Lemma inv_tasks_update s s' j J J' :
  heap s !! j = Some J → heap s' = <[j := J']> (heap s) →
  (∀ t, t ∈ pushed J → t ∈ pushed J') →
  (∀ t, t ∈ tasks J' → t ∈ tasks J ∨ t ∈ pushed J') →
  (completed J' = true → ∀ r, r ∈ delivered J' →
     (completed J = true ∧ r ∈ delivered J) ∨ r = None ∨ r ∈ pushed J') →
  (draining (sched s') = None ∨
   draining (sched s') = draining (sched s) ∧
   ∀ t, live s' t → live s t ∨ (draining (sched s) = Some j ∧ t ∈ pushed J')) →
  inv_tasks s → inv_tasks s'.
Proof.
  intros HJ Hh Hpu Hta Hco Hd []. constructor; rewrite Hh.
  - intros j0 J0 t [(<- & <- & _) | [_ HJ0]]%list_lookup_insert_Some Ht; [|eauto].
    destruct (Hta _ Ht); eauto.
  - intros j0 J0 t Hj0 HJ0 Ht. destruct Hd as [Hd | [Hd Hl]]; [congruence|].
    rewrite Hd in Hj0.
    apply list_lookup_insert_Some in HJ0 as [(<- & <- & _) | [Hne HJ0]].
    + destruct (Hl _ Ht) as [Ht' | [_ Ht']]; eauto.
    + destruct (Hl _ Ht) as [Ht' | [Ht' _]]; [eauto | congruence].
  - intros j0 J0 r [(<- & <- & _) | [_ HJ0]]%list_lookup_insert_Some Hc Hr; [|eauto].
    destruct (Hco Hc _ Hr) as [[Hc' Hr'] | Hr']; [|done].
    destruct (tk_out0 _ _ _ HJ Hc' Hr'); auto.
Qed.

(** The scheduler starts on a job while nothing is in flight. *)
Lemma inv_tasks_start s s' :
  inv_sg s → draining (sched s) = None → heap s' = heap s →
  (∀ t, live s' t → live s t) →
  inv_tasks s → inv_tasks s'.
Proof.
  intros Hsg Hd Hh Hl []. constructor; rewrite Hh; [done| |done].
  intros j J t _ _ Ht%Hl. by apply idle_not_live in Ht.
Qed.

Lemma draining_sched_job pc j : draining pc = Some j → sched_job pc = Some j.
Proof. by destruct pc. Qed.

Lemma inv_tasks_alloc s s' b :
  inv_jobs s →
  sched s' = sched s → err s' = err s → workers s' = workers s →
  heap s' = heap s ++ [fresh_job b] → inv_tasks s → inv_tasks s'.
Proof.
  intros Hjb Hs He Hw Hh [].
  assert (Hn : ∀ j J, (heap s ++ [fresh_job b]) !! j = Some J →
               heap s !! j = Some J ∨ (length (heap s) ≤ j ∧ J = fresh_job b)).
  { intros j J [HJ | [? HJ]]%lookup_app_Some; [by left|right].
    destruct (j - length (heap s)); simplify_eq/=. done. }
  constructor; rewrite Hh.
  - intros j J t [HJ | [_ ->]]%Hn; [eauto|]. simpl. by intros ?%elem_of_nil.
  - intros j J t. rewrite Hs. intros Hj [HJ | [Hlen ->]]%Hn Ht.
    + apply (tk_cur0 j); auto. unfold live in *. by rewrite <-He, <-Hw, <-Hs.
    + destruct (jb_alloc _ Hjb j) as [J HJ].
      { right. by apply draining_sched_job. }
      apply lookup_lt_Some in HJ. lia.
  - intros j J r [HJ | [_ ->]]%Hn; [eauto|]. done.
Qed.

Ltac live_sub :=
  let t0 := fresh "t0" in
  unfold live; simpl;
  intros t0 [(? & ? & ?) | [(? & ? & Hw0 & ?) | ?]];
  try (apply list_lookup_insert_Some in Hw0 as [(<- & <- & _) | [_ Hw0]]);
  first [ solve [simplify_eq/=; eauto 10]
        | repeat match goal with H : sched _ = _ |- _ => rewrite H end;
          simplify_eq/=; eauto 10 ].

Lemma inv_tasks_step a s s' :
  inv_sg s → inv_jobs s → inv_tasks s → do_step a s = Some s' → inv_tasks s'.
Proof.
  intros Hsg Hjb Hinv H. step_cases H; try done.
  all: try (by apply (inv_tasks_frame s);
              [done | simpl; use_eqs; simpl; auto | live_sub | done]).
  all: try (by apply (inv_tasks_start s); [done | by use_eqs | done | live_sub | done]).
  all: try (by eapply (inv_tasks_alloc s)).
  all: eapply (inv_tasks_update s);
            [eassumption | reflexivity | simpl ..| done].
  all: try (intros ?; rewrite ?elem_of_app; tauto).
  all: try (by auto).
  all: try (right; split; [done|]; intros t0 Ht0; left; exact Ht0).
  all: try (by left).
  - intros Hc. destruct (jb_ok _ Hjb _ _ Heqo) as [_ _ _ Hp _].
    destruct Hp as [_ Hf]; [right; by rewrite Heqs0 | congruence].
  - intros t0 Ht0. left. rewrite Heql. by right.
  - right. split; [by rewrite Heqs0|]. intros t0 Ht0.
    destruct Ht0 as [Ht0 | [Ht0 | Ht0]]; [left; by left | left; right; by left |].
    right. split; [by rewrite Heqs0|]. simpl in Ht0. simplify_eq.
    apply (tk_buf _ Hinv j); [done|]. rewrite Heql. by left.
  - intros _ r. destruct (jb_ok _ Hjb _ _ Heqo) as [_ _ _ Hp _].
    destruct Hp as [-> _]; [right; by rewrite Heqs0|]. simpl.
    intros ->%list_elem_of_singleton. right.
    destruct (err s) as [e|] eqn:He; [right|by left].
    apply (tk_cur _ Hinv j); [by rewrite Heqs0 | done |]. left. eauto.
Qed.

(** ** Tasks in flight *)

Lemma inv_flight_New n m : inv_flight (New n m).
Proof. constructor; simpl; done. Qed.

Lemma lookup_snoc_fresh (h : list Job) b j J :
  (h ++ [fresh_job b]) !! j = Some J →
  h !! j = Some J ∨ (j = length h ∧ J = fresh_job b).
Proof.
  intros [HJ | [? HJ]]%lookup_app_Some; [by left|right].
  destruct (j - length h) as [|k] eqn:Hk; simplify_eq/=. split; [lia|done].
Qed.

Lemma inv_flight_step a s s' :
  inv_sg s → inv_jobs s → inv_flight s → do_step a s = Some s' → inv_flight s'.
Proof.
  intros Hsg Hjb [Hb Hc] H. step_cases H; try done.
  all: constructor; simpl; [intros j' J' HJ' | intros j' J' Hd HJ'].
  all: try (apply list_lookup_insert_Some in HJ' as [(<- & <- & _) | [Hne HJ']]).
  all: try (apply lookup_snoc_fresh in HJ' as [HJ' | [-> ->]]).
  all: rewrite ?Heqs0 in *; simplify_eq/=.
  all: repeat match goal with
         | H : heap _ !! ?j = Some ?J |- _ =>
             pose proof (Hb j J H);
             try (pose proof (Hc j J eq_refl H));
             try (pose proof (Hc j J Hd H));
             revert H
         end; intros; simpl in *; rewrite ?length_app in *; simpl in *.
  all: try lia.
  all: try (rewrite Heql in *; simpl in *; lia).
  - destruct (sg_idle _ Hsg) as [_ Hz]; [by rewrite Heqs0|]. lia.
  - destruct (jb_alloc _ Hjb (length (heap s))) as [J HJ].
    { right. by apply draining_sched_job. }
    apply lookup_lt_Some in HJ. lia.
Qed.

(** ** The invariant of the pool *)

Lemma Inv_New n m : Inv (New n m).
Proof.
  constructor; auto using inv_shutdown_New, inv_sg_New, inv_jobs_New,
    inv_tasks_New, inv_flight_New.
Qed.

Lemma Inv_step a s s' : Inv s → do_step a s = Some s' → Inv s'.
Proof.
  intros [] H. constructor;
    eauto using inv_shutdown_step, inv_sg_step, inv_jobs_step,
      inv_tasks_step, inv_flight_step.
Qed.

Lemma Inv_run acts s s' : Inv s → run acts s = Some s' → Inv s'.
Proof.
  revert s. induction acts as [|a acts IH]; intros s HI H; simplify_eq/=; [done|].
  destruct (do_step a s) as [s1|] eqn:Hs; simplify_eq/=.
  eauto using Inv_step.
Qed.

Lemma reachable_Inv s : reachable s → Inv s.
Proof. intros (n & m & acts & H). eauto using Inv_run, Inv_New. Qed.

Lemma run_app acts1 acts2 s :
  run (acts1 ++ acts2) s = s' ← run acts1 s; run acts2 s'.
Proof.
  revert s. induction acts1 as [|a acts IH]; intros s; simpl; [done|].
  destruct (do_step a s); simpl; auto.
Qed.

Lemma run_reachable n m acts s : run acts (New n m) = Some s → reachable s.
Proof. intros H. by exists n, m, acts. Qed.

(** ** What one step can do *)

Lemma step_count a s s' : do_step a s = Some s' → count s' = count s.
Proof. intros H. step_cases H; simpl; done. Qed.

Lemma run_count acts s s' : run acts s = Some s' → count s' = count s.
Proof.
  revert s. induction acts as [|a acts IH]; intros s H; simpl in H.
  - by simplify_eq.
  - destruct (do_step a s) as [s1|] eqn:Hd; [|done].
    rewrite (IH _ H). by eapply step_count.
Qed.

Lemma step_flag a s s' :
  do_step a s = Some s' → shouldShutdown s = true → shouldShutdown s' = true.
Proof. intros H Hf. step_cases H; simpl; done. Qed.

Lemma step_sched a s s' :
  do_step a s = Some s' → sched s' = sched s ∨ sched_next s (sched s) (sched s').
Proof.
  intros H. step_cases H; simpl; auto.
  all: right; use_eqs; simpl; eauto.
  split; [done|]. by apply bool_decide_eq_true in Heqb0.
Qed.

Lemma step_err a s s' :
  do_step a s = Some s' →
  err s' = err s ∨
  (err s = None ∧ ∃ w e, workers s !! w = Some (WRecord e) ∧ err s' = Some e) ∨
  (∃ j, sched s = SFinish j ∧ sched s' = SRange ∧ err s' = None).
Proof.
  intros H. step_cases H; simpl; auto.
  - right; right. eauto.
  - right; left. eauto.
Qed.

Lemma step_heap a s s' j J :
  do_step a s = Some s' → heap s !! j = Some J →
  ∃ J', heap s' !! j = Some J' ∧ job_next s s' j J J'.
Proof.
  intros H HJ. step_cases H; simpl.
  all: try (exists J; split; [done|]; constructor; simpl; auto;
            left; repeat split; auto; use_eqs; simpl; congruence).
  all: try (exists J; split; [by apply lookup_app_l_Some|]; constructor; simpl; auto;
            left; repeat split; auto; fail).
  all: match goal with
       | |- context [<[?j1 := ?J1]> (heap _)] =>
           destruct (decide (j = j1)) as [->|Hne];
           [ exists J1; split;
             [apply list_lookup_insert_eq; by eapply lookup_lt_Some|]
           | exists J; split; [by rewrite list_lookup_insert_ne|] ]
       end; simplify_eq; constructor; simpl; auto.
  all: try (left; repeat split; auto; use_eqs; simpl; congruence).
  intros; congruence.
Qed.

(** ** Executions *)

(** A property of states that every step preserves, along an execution. *)
Lemma run_preserves (P : Workers → Prop) acts s s' :
  (∀ a s1 s2, Inv s1 → P s1 → do_step a s1 = Some s2 → P s2) →
  Inv s → P s → run acts s = Some s' → P s'.
Proof.
  intros HP. revert s. induction acts as [|a acts IH]; intros s HI Hs H.
  - by simplify_eq/=.
  - simpl in H. destruct (do_step a s) as [s1|] eqn:Hd; [|done].
    apply (IH s1); [by eapply Inv_step | by eapply HP | done].
Qed.

(** [Job.Wait] returns a value that was delivered. *)
Lemma Wait_delivered s j r s' :
  Inv s → Wait j s = Some (r, s') →
  ∃ J, heap s !! j = Some J ∧ r ∈ delivered J.
Proof.
  intros HI H. unfold Wait in H.
  destruct (heap s !! j) as [J|] eqn:HJ; simplify_eq/=.
  destruct (negb (admitted J)); simplify_eq/=.
  destruct (result J) as [|r0 rs] eqn:Hr; simplify_eq/=.
  exists J. split; [done|].
  destruct (jo_buf _ _ _ (jb_ok _ (Inv_jobs _ HI) _ _ HJ)) as [Hb|Hb].
  - rewrite <-Hb, Hr. by left.
  - by rewrite Hb in Hr.
Qed.

(** While it executes a job the scheduler stays with it until it delivers. *)
Lemma draining_next s pc pc' j :
  draining pc = Some j → sched_next s pc pc' → sched_job pc' = Some j →
  draining pc' = Some j.
Proof. destruct pc, pc'; simpl; intros; simplify_eq; intuition congruence. Qed.

(** ** Shutdown *)

(** A job that was admitted and is neither queued nor with the scheduler has
    exactly one outcome. *)
Lemma resolved_once s j J :
  inv_jobs s → heap s !! j = Some J → admitted J = true → ¬ pending s j →
  length (delivered J) = 1.
Proof.
  intros Hjb HJ Ha Hp.
  destruct (jo_res _ _ _ (jb_ok _ Hjb _ _ HJ) Ha Hp) as [[-> _] | (r & -> & _)]; done.
Qed.

(** [C3] In a pool built with [nworkers] workers: [Stop] sets the shutdown
    flag, then closes the admission queue, then blocks until the scheduler has
    left its loop with the queue empty, every admitted job resolved and the
    acknowledgment given; only then are the workers signalled, and [Stop] has
    returned only when each of the [nworkers] workers has confirmed its
    termination. *)
Theorem C3_Stop_handshake nworkers maxjobs acts s :
  run acts (New nworkers maxjobs) = Some s →
  (1 ≤ stop_phase (stopper s) → shouldShutdown s = true) ∧
  (2 ≤ stop_phase (stopper s) → queue_closed s = true) ∧
  (3 ≤ stop_phase (stopper s) →
     ackShutdown s = true ∧ sched s = SExit ∧ queue s = [] ∧
     ∀ j J, heap s !! j = Some J → admitted J = true → length (delivered J) = 1) ∧
  (stopWorkers s = true → 4 ≤ stop_phase (stopper s)) ∧
  (stopper s = StReturned →
     count s = nworkers ∧ length (workers s) = nworkers ∧
     ∀ w, w < nworkers → workers s !! w = Some WStopped).
Proof.
  intros Hrun. pose proof (run_count _ _ _ Hrun) as Hn. simpl in Hn.
  apply run_reachable, reachable_Inv in Hrun as [[] _ Hjb _ _]. repeat split.
  - intros. rewrite sh_flag0. by apply bool_decide_eq_true.
  - intros. rewrite sh_closed0. by apply bool_decide_eq_true.
  - auto.
  - apply sh_past0 in H. rewrite sh_ack0 in H. by destruct (sched s).
  - apply sh_past0 in H. rewrite sh_ack0 in H.
    apply sh_end0. by destruct (sched s).
  - intros j J HJ Ha. apply (resolved_once s j); auto.
    apply sh_past0 in H. rewrite sh_ack0 in H.
    destruct (sh_end0) as [Hq _]; [by destruct (sched s)|].
    unfold pending. rewrite Hq. intros [Hin | Hs].
    + by apply elem_of_nil in Hin.
    + by destruct (sched s).
  - rewrite sh_sig0. by intros ?%bool_decide_eq_true.
  - done.
  - congruence.
  - intros w Hw. specialize (sh_ret0 H).
    destruct (lookup_lt_is_Some_2 (workers s) w) as [pc Hpc]; [lia|].
    assert (is_stopped pc = true) as Hst.
    { apply (count_if_full is_stopped (workers s) w); [lia | done]. }
    by destruct pc.
Qed.

(** The shutdown flag is set as soon as [Stop] has begun. *)
Lemma Stop_begun_flag s :
  reachable s → stopper s ≠ StIdle → shouldShutdown s = true.
Proof.
  intros [[] _ _ _ _]%reachable_Inv Hs. rewrite sh_flag0.
  apply bool_decide_eq_true. destruct (stopper s); simpl; try lia. done.
Qed.

(** [C6] When the shutdown flag is set, [NewJob] returns [ErrShutdown] and no
    job; the pool is left as it was: no job is allocated, nothing is sent on
    the admission queue. *)
Theorem C6_NewJob_fails_fast s taskBacklog :
  shouldShutdown s = true →
  NewJob_check taskBacklog s = (inr ErrShutdown, s) ∧
  (crashed s = false → do_step (ANewJob taskBacklog) s = Some s).
Proof.
  intros Hf. unfold do_step, NewJob_check. rewrite Hf. split; [done|].
  by intros ->.
Qed.

(** The only step that closes [ackShutdown]. *)
Lemma step_ack a s s' :
  do_step a s = Some s' → ackShutdown s' ≠ ackShutdown s →
  a = AprocessQueue ∧ sched s = SAck ∧ ackShutdown s = false ∧
  triggeredShutdown s = false ∧ sched s' = SExit.
Proof.
  intros H Hne. step_cases H; simpl in *; try done.
  apply andb_true_iff in Heqb0 as [_ Ht%negb_true_iff]. done.
Qed.

(** [C8] The acknowledgment channel is closed by one step only, the critical
    section that follows the scheduler's loop; that step is taken with the
    channel open and [triggeredShutdown] unset, it sets the flag, and it leaves
    the scheduler at its exit, from where it takes no further step: the
    channel is never closed twice. *)
Theorem C8_ack_closed_once s :
  reachable s →
  triggeredShutdown s = ackShutdown s ∧
  (ackShutdown s = true → sched s = SExit) ∧
  (sched s = SExit → do_step AprocessQueue s = None) ∧
  (sched s = SAck → crashed s = false →
     ackShutdown s = false ∧
     do_step AprocessQueue s = Some (set_sched SExit (trigger_ack s))) ∧
  (∀ a s', do_step a s = Some s' → ackShutdown s' ≠ ackShutdown s →
     a = AprocessQueue ∧ sched s = SAck ∧ ackShutdown s = false ∧
     triggeredShutdown s = false ∧ triggeredShutdown s' = true ∧ sched s' = SExit).
Proof.
  intros HI%reachable_Inv. pose proof (Inv_shutdown _ HI) as [].
  repeat split; try done.
  - intros Ha. rewrite sh_ack0 in Ha. by destruct (sched s).
  - intros Hs. unfold do_step, processQueue. rewrite Hs. by destruct (crashed s).
  - rewrite sh_ack0, H. done.
  - unfold do_step, processQueue. rewrite H0, H.
    destruct (sh_end0) as [_ Hc]; [by rewrite H|].
    rewrite sh_closed0 in Hc. apply bool_decide_eq_true in Hc.
    rewrite sh_trig0, sh_ack0, sh_flag0, H. simpl.
    rewrite bool_decide_eq_true_2 by lia. done.
  - by eapply step_ack.
  - by eapply step_ack.
  - by eapply step_ack.
  - by eapply step_ack.
  - destruct (step_ack _ _ _ H H0) as (-> & Hs & Ha & Ht & Hs').
    apply Inv_step in H; [|done]. destruct (Inv_shutdown _ H).
    rewrite sh_trig1, sh_ack1, Hs'. done.
  - by eapply step_ack.
Qed.

(** ** Outcomes *)

(** The step of the scheduler that ends the execution of a job. *)
Lemma processQueue_finish s j J :
  Inv s → crashed s = false → sched s = SFinish j → heap s !! j = Some J →
  do_step AprocessQueue s
  = Some (set_sched SRange
            (set_err None (set_job j (send_result (err s) (close_completed J)) s))).
Proof.
  intros HI Hc Hs HJ. unfold do_step, processQueue. rewrite Hc, Hs. simpl. rewrite HJ. simpl.
  destruct (jb_ok _ (Inv_jobs _ HI) _ _ HJ) as [_ Hb _ Hp _].
  destruct Hp as [Hd Hco]; [right; by rewrite Hs|].
  rewrite Hco. destruct Hb as [Hb|Hb]; rewrite Hb, ?Hd; done.
Qed.

(** [C2] (as amended) A job has at most one outcome sent on its result
    channel: none while it is not admitted, queued or with the scheduler,
    exactly one once the scheduler is done with it.  When the outcome has been
    sent, either the completion signal has fired (the job was executed), or
    the outcome is [ErrShutdown] and the completion signal has not fired (the
    job was rejected).  The critical section that ends the execution of a job
    sends the outcome on the job whose completion signal it has just fired. *)
Theorem C2_outcome_delivered_once s j J :
  reachable s → heap s !! j = Some J →
  length (delivered J) ≤ 1 ∧
  (admitted J = false ∨ pending s j → delivered J = []) ∧
  (admitted J = true → ¬ pending s j → length (delivered J) = 1) ∧
  (delivered J ≠ [] →
     completed J = true ∨
     (delivered J = [Some ErrShutdown] ∧ completed J = false)) ∧
  (sched s = SFinish j → crashed s = false →
     do_step AprocessQueue s
     = Some (set_sched SRange
               (set_err None
                  (set_job j (send_result (err s) (close_completed J)) s)))).
Proof.
  intros HI%reachable_Inv HJ.
  pose proof (Inv_jobs _ HI) as Hjb.
  destruct (jb_ok _ Hjb _ _ HJ) as [Ho Hb Hn Hp Hr].
  split; [done|]. split; [|split; [|split]].
  - intros [Ha | Hq]; [by destruct (Hn Ha) as (_ & ? & _) | by destruct (Hp Hq)].
  - intros Ha Hq. by apply (resolved_once s j).
  - intros Hd. destruct (admitted J) eqn:Ha.
    + destruct (decide (j ∈ queue s)) as [Hin|Hin].
      { destruct Hp as [? _]; [by left | done]. }
      destruct (decide (sched_job (sched s) = Some j)) as [Hs|Hs].
      { destruct Hp as [? _]; [by right | done]. }
      destruct Hr as [? | (r & _ & ?)]; auto.
      intros [?|?]; done.
    + by destruct (Hn eq_refl) as (_ & ? & _).
  - intros Hs Hc. by apply processQueue_finish.
Qed.

(** [C5] The error slot is empty whenever the scheduler is not executing a
    job, hence when it starts on one.  The slot goes from occupied to empty
    only in the critical section that ends the execution of a job, which first
    sends the content of the slot as the outcome of that job; that critical
    section always resets the slot.  The outcome of an executed job is [nil]
    or the value returned by one of the tasks pushed to that same job. *)
Theorem C5_error_slot_reset s :
  reachable s →
  (draining (sched s) = None → err s = None) ∧
  (∀ a s', do_step a s = Some s' → err s ≠ None → err s' = None →
     ∃ j J J', a = AprocessQueue ∧ sched s = SFinish j ∧
       heap s !! j = Some J ∧ heap s' !! j = Some J' ∧
       delivered J = [] ∧ delivered J' = [err s] ∧ completed J' = true) ∧
  (∀ j, sched s = SFinish j → crashed s = false →
     ∃ s', do_step AprocessQueue s = Some s' ∧ err s' = None ∧ sched s' = SRange) ∧
  (∀ j J r, heap s !! j = Some J → completed J = true → r ∈ delivered J →
     r = None ∨ r ∈ pushed J).
Proof.
  intros HI%reachable_Inv. split; [|split; [|split]].
  - intros Hd. by destruct (sg_idle _ (Inv_sg _ HI) Hd).
  - intros a s' H He He'.
    assert (a = AprocessQueue ∧ ∃ j, sched s = SFinish j) as [-> [j Hs]].
    { clear HI. step_cases H; simpl in *; try done; try congruence; eauto. }
    destruct (jb_alloc _ (Inv_jobs _ HI) j) as [J HJ]; [right; by rewrite Hs|].
    pose proof H as H'.
    rewrite (processQueue_finish s j J) in H' by (try done; unfold do_step in H; by destruct (crashed s)).
    simplify_eq/=. exists j, J, (send_result (err s) (close_completed J)).
    destruct (jb_ok _ (Inv_jobs _ HI) _ _ HJ) as [_ _ _ Hp _].
    destruct Hp as [Hd _]; [right; by rewrite Hs|].
    repeat split; auto.
    + apply list_lookup_insert_eq. by eapply lookup_lt_Some.
    + simpl. by rewrite Hd.
  - intros j Hs Hc.
    destruct (jb_alloc _ (Inv_jobs _ HI) j) as [J HJ]; [right; by rewrite Hs|].
    eexists. split; [by apply (processQueue_finish s j J)|]. done.
  - apply (tk_out _ (Inv_tasks _ HI)).
Qed.

(** ** First error wins *)

Lemma pending_undelivered s j J :
  Inv s → heap s !! j = Some J → sched_job (sched s) = Some j →
  delivered J = [] ∧ completed J = false ∧ result J = [] ∧ admitted J = true.
Proof.
  intros HI HJ Hs.
  destruct (jb_ok _ (Inv_jobs _ HI) _ _ HJ) as [_ Hb Hn Hp _].
  destruct Hp as [Hd Hc]; [by right|]. repeat split; try done.
  - destruct Hb as [Hb|Hb]; by rewrite Hb.
  - destruct (admitted J); [done|]. destruct (Hn eq_refl) as [Hx _].
    destruct Hx. by right.
Qed.

Lemma first_error_step j e0 a s s' :
  Inv s → first_error j e0 s → do_step a s = Some s' → first_error j e0 s'.
Proof.
  intros HI (J & HJ & Hc) H.
  destruct (step_heap _ _ _ _ _ H HJ) as (J' & HJ' & [_ _ _ Hdel]).
  exists J'. split; [done|].
  destruct Hc as [(Hd & He & HdJ) | HdJ].
  - destruct Hdel as [(Hd1 & _ & Hs1) | [(Hs & _) | (Hs & Hd1 & _)]].
    + left. specialize (Hs1 (draining_sched_job _ _ Hd)). repeat split.
      * destruct (step_sched _ _ _ H) as [-> | Hn]; [done | by eapply draining_next].
      * destruct (step_err _ _ _ H) as [-> | [(Hn & _) | (j' & _ & Hs' & _)]];
          [done | congruence | by rewrite Hs' in Hs1].
      * by rewrite Hd1.
    + by rewrite Hs in Hd.
    + right. by rewrite Hd1, HdJ, He.
  - right. destruct Hdel as [(Hd1 & _) | [(Hs & _) | (Hs & _)]].
    + by rewrite Hd1.
    + destruct (pending_undelivered s j J) as [Hx _]; auto; [by rewrite Hs | congruence].
    + destruct (pending_undelivered s j J) as [Hx _]; auto; [by rewrite Hs | congruence].
Qed.

(** [C4] The critical section of a worker whose task failed stores the error
    only in an empty slot and leaves an occupied slot as it is.  An error [e0]
    that is in the slot while job [j] is executed is the one error that [Wait]
    returns for [j]: no [Wait] on [j] returns anything else; in every later
    state [e0] is still in the slot with [j] in execution, or it is the one
    outcome of [j], which [Wait] returns unless it was received already; and
    when the scheduler has passed the WaitGroup, its next step delivers [e0]
    and [Wait] returns it. *)
Theorem C4_first_error_wins s :
  reachable s →
  (∀ w e, workers s !! w = Some (WRecord e) → crashed s = false →
     ∃ s', do_step (AstartWorker w) s = Some s' ∧
           err s' = match err s with Some e0 => Some e0 | None => Some e end) ∧
  (∀ j e0 acts s' r s'', draining (sched s) = Some j → err s = Some e0 →
     run acts s = Some s' → Wait j s' = Some (r, s'') → r = Some e0) ∧
  (∀ j e0 acts s', draining (sched s) = Some j → err s = Some e0 →
     run acts s = Some s' →
     ∃ J', heap s' !! j = Some J' ∧
       ((draining (sched s') = Some j ∧ err s' = Some e0 ∧ delivered J' = []) ∨
        (delivered J' = [Some e0] ∧
         (Wait j s' = Some (Some e0, set_job j (set_result [] J') s') ∨
          (result J' = [] ∧ Wait j s' = None))))) ∧
  (∀ j e0, sched s = SFinish j → err s = Some e0 → crashed s = false →
     ∃ s1 s2, do_step AprocessQueue s = Some s1 ∧ sched s1 = SRange ∧
              Wait j s1 = Some (Some e0, s2)).
Proof.
  intros HI%reachable_Inv.
  assert (Hfirst : ∀ j e0 acts s', draining (sched s) = Some j → err s = Some e0 →
            run acts s = Some s' → first_error j e0 s').
  { intros j e0 acts s' Hd He Hrun.
    destruct (jb_alloc _ (Inv_jobs _ HI) j) as [J HJ];
      [right; by apply draining_sched_job|].
    apply (run_preserves (first_error j e0) acts s); auto.
    - intros a s1 s2 ? ? ?. by eapply first_error_step.
    - exists J. split; [done|]. left.
      destruct (pending_undelivered s j J); auto using draining_sched_job. }
  split; [|split; [|split]].
  - intros w e Hw Hc. unfold do_step, startWorker. rewrite Hc, Hw. simpl. eauto.
  - intros j e0 acts s' r s'' Hd He Hrun HW.
    destruct (Hfirst j e0 acts s' Hd He Hrun) as (J' & HJ' & Hc).
    destruct (Wait_delivered s' j r s'') as (J1 & HJ1 & Hr); [by eapply Inv_run | done |].
    simplify_eq. destruct Hc as [(_ & _ & Hx) | Hx]; rewrite Hx in Hr.
    + by apply elem_of_nil in Hr.
    + by apply list_elem_of_singleton in Hr.
  - intros j e0 acts s' Hd He Hrun.
    destruct (Hfirst j e0 acts s' Hd He Hrun) as (J' & HJ' & Hc).
    exists J'. split; [done|]. destruct Hc as [? | Hdel]; [by left|]. right.
    split; [done|].
    assert (HI' : Inv s') by (by eapply Inv_run).
    destruct (jb_ok _ (Inv_jobs _ HI') _ _ HJ') as [_ Hb Hn _ _].
    assert (Ha : admitted J' = true).
    { destruct (admitted J'); [done|]. destruct (Hn eq_refl) as (_ & Hx & _). congruence. }
    unfold Wait. rewrite HJ'. simpl. rewrite Ha. simpl.
    destruct Hb as [Hb | Hb]; rewrite Hb, ?Hdel; auto.
  - intros j e0 Hs He Hcr.
    destruct (jb_alloc _ (Inv_jobs _ HI) j) as [J HJ]; [right; by rewrite Hs|].
    destruct (pending_undelivered s j J) as (_ & _ & Hres & Hadm); auto; [by rewrite Hs|].
    eexists _, _. split; [by apply processQueue_finish|]. split; [done|].
    assert (Hlt : j < length (heap s)) by (by eapply lookup_lt_Some).
    unfold Wait. simpl. rewrite list_lookup_insert_eq by done. simpl.
    rewrite Hadm, Hres, He. simpl. reflexivity.
Qed.

(** ** Jobs reached after shutdown *)

Lemma step_queue a s s' j :
  do_step a s = Some s' → j ∈ queue s →
  j ∈ queue s' ∨ (sched s = SRange ∧ sched s' = SCheck j).
Proof.
  intros H Hj. step_cases H; simpl; auto.
  all: try (by apply elem_of_nil in Hj).
  - apply elem_of_cons in Hj as [->|Hj]; auto.
  - left. apply elem_of_app. by left.
Qed.

Lemma rejected_step j a s s' :
  Inv s → rejected j s → do_step a s = Some s' → rejected j s'.
Proof.
  intros HI (Hf & J & HJ & Hco & Hc) H.
  split; [by eapply step_flag|].
  destruct (step_heap _ _ _ _ _ H HJ) as (J' & HJ' & [Hadm _ _ Hdel]).
  exists J'. split; [done|].
  assert (Hpend : sched_job (sched s) = Some j → delivered J = [] ∧ admitted J = true).
  { intros Hs. destruct (pending_undelivered s j J) as (? & _ & _ & ?); auto. }
  destruct Hc as [[Hw HdJ] | [Ha HdJ]].
  - destruct Hdel as [(Hd1 & Hc1 & Hs1) | [(Hs & Hd1 & Hc1) | (Hs & _)]].
    + split; [congruence|]. left. split; [|congruence].
      destruct Hw as [Hq | [Hs | Hs]].
      * destruct (step_queue _ _ _ j H Hq) as [? | [_ ?]]; auto.
      * destruct (step_sched _ _ _ H) as [Hs' | Hn]; [rewrite Hs'; auto|].
        rewrite Hs in Hn. destruct (sched s'); simpl in Hn; try done.
        -- destruct Hn as [-> _]. auto.
        -- destruct Hn as [_ Hn]. congruence.
      * destruct (step_sched _ _ _ H) as [Hs' | Hn]; [rewrite Hs'; auto|].
        rewrite Hs in Hs1, Hn. specialize (Hs1 eq_refl).
        destruct (sched s'); simpl in *; done.
    + split; [congruence|]. right. destruct Hpend as [_ Ha]; [by rewrite Hs|].
      split; [auto|]. by rewrite Hd1, HdJ.
    + destruct Hw as [Hq | [Hs' | Hs']]; [|congruence..].
      destruct (jb_sched _ (Inv_jobs _ HI) j); [by rewrite Hs | done].
  - destruct Hdel as [(Hd1 & Hc1 & _) | [(Hs & _) | (Hs & _)]].
    + split; [congruence|]. right. split; [auto | congruence].
    + destruct Hpend as [? _]; [by rewrite Hs | congruence].
    + destruct Hpend as [? _]; [by rewrite Hs | congruence].
Qed.

(** [C7] A job that is in the admission queue when the shutdown flag is set is
    never executed: in every later state the scheduler is not draining it, its
    completion signal has not fired, it has no outcome while it is queued or
    with the scheduler, and its outcome is [ErrShutdown] afterwards.  The
    scheduler's check and its send of [ErrShutdown] never block, and the send
    takes it back to the head of its loop. *)
Theorem C7_dequeued_after_shutdown_is_rejected s j acts s' :
  reachable s → shouldShutdown s = true → j ∈ queue s →
  run acts s = Some s' →
  draining (sched s') ≠ Some j ∧
  (∃ J, heap s' !! j = Some J ∧ completed J = false ∧
        (pending s' j → delivered J = []) ∧
        (¬ pending s' j → delivered J = [Some ErrShutdown])) ∧
  (crashed s' = false → sched s' = SCheck j →
     do_step AprocessQueue s' = Some (set_sched (SReject j) s')) ∧
  (crashed s' = false → sched s' = SReject j →
     ∃ J, heap s' !! j = Some J ∧
       do_step AprocessQueue s'
       = Some (set_sched SRange (set_job j (send_result (Some ErrShutdown) J) s'))).
Proof.
  intros HI%reachable_Inv Hf Hq Hrun.
  destruct (jb_alloc _ (Inv_jobs _ HI) j) as [J HJ]; [by left|].
  assert (rejected j s') as (Hf' & J' & HJ' & Hco & Hc).
  { apply (run_preserves (rejected j) acts s); auto.
    - intros a s1 s2 ? ? ?. by eapply rejected_step.
    - split; [done|]. exists J. split; [done|].
      destruct (jb_ok _ (Inv_jobs _ HI) _ _ HJ) as [_ _ _ Hp _].
      destruct Hp as [? ?]; [by left|]. auto. }
  assert (HI' : Inv s') by (by eapply Inv_run).
  pose proof (Inv_jobs _ HI') as Hjb.
  repeat split.
  - intros Hd. destruct (pending_undelivered s' j J') as [Hx _];
      auto using draining_sched_job.
    destruct Hc as [[[Hin | [Hs | Hs]] _] | [_ Hy]].
    + by apply (jb_sched _ Hjb j), Hin; apply draining_sched_job.
    + by rewrite Hs in Hd.
    + by rewrite Hs in Hd.
    + congruence.
  - exists J'. repeat split; auto.
    + intros Hp. by destruct (jo_pend _ _ _ (jb_ok _ Hjb _ _ HJ') Hp).
    + intros Hnp. destruct Hc as [[Hw _] | [_ ?]]; [|done].
      destruct Hnp. destruct Hw as [? | [Hs | Hs]]; [by left | right; by rewrite Hs ..].
  - intros Hcr Hs. unfold do_step, processQueue. by rewrite Hcr, Hs, Hf'.
  - intros Hcr Hs. exists J'. split; [done|].
    unfold do_step, processQueue. rewrite Hcr, Hs. simpl. rewrite HJ'. simpl.
    destruct (pending_undelivered s' j J') as (_ & _ & -> & _); auto.
    by rewrite Hs.
Qed.

(** ** The empty job *)

Lemma empty_job_step j a s s' :
  Inv s → empty_job j s → do_step a s = Some s' → empty_job j s'.
Proof.
  intros HI (J & HJ & Hpu & Htc & Hc) H.
  destruct (step_heap _ _ _ _ _ H HJ) as (J' & HJ' & [_ Hcl Hco Hdel]).
  destruct (Hcl Htc) as [Htc' Hpu']. exists J'.
  split; [done|]. split; [congruence|]. split; [done|].
  destruct Hc as [[Hd HdJ] | Hc]; [|auto].
  destruct Hdel as [(Hd1 & _ & Hs1) | [(Hs & _) | (_ & _ & ?)]]; [|by rewrite Hs in Hd|auto].
  left. specialize (Hs1 (draining_sched_job _ _ Hd)). split; [|congruence].
  destruct (step_sched _ _ _ H) as [-> | Hn]; [done | by eapply draining_next].
Qed.

(** [C10] A job that the scheduler starts to execute after the caller has
    finalized it without pushing a task: the scheduler's next three steps are
    never blocked; they leave the drain loop, pass the WaitGroup, fire the
    completion signal and deliver [nil], which [Wait] then returns.  Whatever
    the other goroutines do in between, [Wait] returns [nil] for that job, and
    only after the completion signal has fired. *)
Theorem C10_empty_job s j J :
  reachable s → crashed s = false → sched s = SDrain j →
  heap s !! j = Some J → pushed J = [] → tasks_closed J = true →
  (∃ s', run [AprocessQueue; AprocessQueue; AprocessQueue] s = Some s' ∧
         sched s' = SRange ∧
         (∃ J', heap s' !! j = Some J' ∧ completed J' = true ∧
                delivered J' = [None]) ∧
         ∃ s'', Wait j s' = Some (None, s'')) ∧
  (∀ acts s1 r s2, run acts s = Some s1 → Wait j s1 = Some (r, s2) →
     r = None ∧ ∃ J1, heap s1 !! j = Some J1 ∧ completed J1 = true).
Proof.
  intros HI%reachable_Inv Hcr Hs HJ Hpu Htc.
  assert (Hd : draining (sched s) = Some j) by (by rewrite Hs).
  destruct (pending_undelivered s j J) as (HdJ & HcJ & HrJ & HaJ);
    auto using draining_sched_job.
  split.
  - pose proof (fl_cur _ (Inv_flight _ HI) j J Hd HJ) as Hfl.
    rewrite Hpu in Hfl. simpl in Hfl.
    assert (Ht : tasks J = []) by (destruct (tasks J); [done | simpl in Hfl; lia]).
    assert (Hsg : sg s = 0) by lia.
    assert (He : err s = None).
    { destruct (err s) as [e|] eqn:He; [|done].
      assert (Some e ∈ pushed J) as Hin.
      { apply (tk_cur _ (Inv_tasks _ HI) j); auto. left. eauto. }
      rewrite Hpu in Hin. by apply elem_of_nil in Hin. }
    eexists. split.
    { unfold run, do_step, processQueue. rewrite Hcr, Hs. simpl.
      rewrite HJ. simpl. rewrite Ht, Htc. simpl. rewrite Hcr. simpl.
      rewrite Hsg. simpl. rewrite Hcr. simpl. rewrite HJ. simpl.
      rewrite HcJ, HrJ. simpl. reflexivity. }
    assert (Hlt : j < length (heap s)) by (by eapply lookup_lt_Some).
    split; [done|]. split.
    + eexists. split; [by apply list_lookup_insert_eq|]. simpl.
      by rewrite HdJ, He.
    + unfold Wait. simpl. rewrite list_lookup_insert_eq by done. simpl.
      rewrite HaJ, HrJ, He. simpl. eauto.
  - intros acts s1 r s2 Hrun HW.
    assert (empty_job j s1) as (J1 & HJ1 & Hpu1 & _ & Hc).
    { apply (run_preserves (empty_job j) acts s); auto.
      - intros a sa sb ? ? ?. by eapply empty_job_step.
      - exists J. split; [done|]. split; [done|]. split; [done|]. by left. }
    assert (HI1 : Inv s1) by (by eapply Inv_run).
    destruct (Wait_delivered s1 j r s2) as (J2 & HJ2 & Hr); [done..|].
    simplify_eq.
    assert (Hco : completed J1 = true).
    { destruct Hc as [[_ Hx] | ?]; [|done]. rewrite Hx in Hr. by apply elem_of_nil in Hr. }
    split; [|eauto].
    destruct (tk_out _ (Inv_tasks _ HI1) _ _ _ HJ1 Hco Hr) as [? | Hin]; [done|].
    rewrite Hpu1 in Hin. by apply elem_of_nil in Hin.
Qed.

(** ** A worker that skipped a task *)

(** A worker that has returned without confirming stays so. *)
Lemma returned_forever a s s' w :
  do_step a s = Some s' → workers s !! w = Some WReturned →
  workers s' !! w = Some WReturned.
Proof.
  intros H Hw. step_cases H; simpl; try done.
  all: match goal with
       | |- <[?w1 := _]> _ !! _ = _ =>
           destruct (decide (w1 = w)) as [->|Hne];
           [congruence | by rewrite list_lookup_insert_ne]
       end.
Qed.

(** [Stop] cannot return while a worker has left through the branch
    [err != nil] of line 104. *)
Lemma returned_worker_blocks_Stop s w :
  reachable s → workers s !! w = Some WReturned → stopper s ≠ StReturned.
Proof.
  intros HI%reachable_Inv Hw Hs. destruct (Inv_shutdown _ HI).
  specialize (sh_ret0 Hs).
  assert (is_stopped WReturned = true); [|done].
  apply (count_if_full is_stopped (workers s) w); [lia | done].
Qed.

(** * Further properties of the pool *)

(** ** Panics *)

Lemma count_if_none {A} (p : A → bool) (l : list A) i x :
  count_if p l = 0 → l !! i = Some x → p x = false.
Proof.
  intros Hc Hi. destruct (p x) eqn:Hp; [|done].
  pose proof (count_if_pos p l i x Hi Hp). lia.
Qed.

(** [X1] The scheduler never panics, and [w.sg.Done()] in a worker never
    panics: the scheduler closes [j.completed] once per job and
    [w.ackShutdown] once, and whenever a worker is about to call
    [w.sg.Done()], on the normal path or on the skip path, the WaitGroup
    counter is positive, so that it never becomes negative. *)
Theorem X1_pool_never_panics s :
  reachable s → crashed s = false →
  (∀ s', do_step AprocessQueue s = Some s' → crashed s' = false) ∧
  (∀ w, workers s !! w = Some WDone ∨ workers s !! w = Some WSkip →
     ∃ s', do_step (AstartWorker w) s = Some s' ∧ crashed s' = false ∧
           sg s = S (sg s')).
Proof.
  intros HI%reachable_Inv Hcr.
  pose proof (Inv_shutdown _ HI) as Hsh. pose proof (Inv_sg _ HI) as Hsg.
  split.
  - intros s' H.
    assert (Hpu : ∀ j J, heap s !! j = Some J → sched_job (sched s) = Some j →
                   completed J = false).
    { intros j J HJ Hs. by destruct (pending_undelivered s j J) as (_ & ? & _). }
    unfold do_step in H. rewrite Hcr in H. unfold processQueue in H.
    destruct (sched s) as [| j | j | j | j t | j t | j | j | |] eqn:Hs; simpl in H.
    all: repeat match type of H with
           | context [mbind _ ?x] => destruct x eqn:?; simpl in H; try discriminate H
           | context [match ?x with _ => _ end] =>
               destruct x eqn:?; simpl in H; try discriminate H
           end; simplify_eq; simpl; try done.
    + rewrite (Hpu j j0 Heqo eq_refl) in Heqb. done.
    + destruct Hsh. rewrite sh_trig0, Heqb0 in Heqb.
      by destruct (shouldShutdown s).
  - intros w Hw. unfold do_step, startWorker, sg_Done. rewrite Hcr.
    assert (1 ≤ sg s) as Hpos.
    { destruct Hsg as [Hcnt _ _].
      destruct Hw as [Hw | Hw];
        pose proof (count_if_pos is_active _ _ _ Hw eq_refl); lia. }
    destruct (sg s) as [|n] eqn:Hn; [lia|].
    destruct Hw as [Hw | Hw]; rewrite Hw; simpl; eauto.
Qed.


(** ** What [Wait] returns *)

(** What a receive on [j.result] finds and leaves. *)
Lemma Wait_spec s j r s' :
  Inv s → Wait j s = Some (r, s') →
  ∃ J, heap s !! j = Some J ∧ admitted J = true ∧
       result J = [r] ∧ delivered J = [r] ∧
       s' = set_job j (set_result [] J) s.
Proof.
  intros HI H. unfold Wait in H.
  destruct (heap s !! j) as [J|] eqn:HJ; simplify_eq/=.
  destruct (admitted J) eqn:Ha; simplify_eq/=.
  destruct (result J) as [|r0 rs] eqn:Hr; simplify_eq/=.
  destruct (jb_ok _ (Inv_jobs _ HI) _ _ HJ) as [Ho Hb _ _ _].
  destruct Hb as [Hb|Hb]; [|by rewrite Hb in Hr].
  assert (rs = []) as ->.
  { rewrite <-Hb, Hr in Ho. simpl in Ho. destruct rs; [done | simpl in Ho; lia]. }
  rewrite Hr in Hb. exists J. repeat split; auto.
Qed.

(** [X2] [Job.Wait] returns [nil] or the error returned by one of the tasks
    pushed to that same job when the job was executed (its completion signal
    has fired), and [ErrShutdown] when it was not; it leaves the result channel
    empty. *)
Theorem X2_Wait_value s j r s' :
  reachable s → Wait j s = Some (r, s') →
  ∃ J, heap s !! j = Some J ∧ admitted J = true ∧
       result J = [r] ∧ delivered J = [r] ∧
       s' = set_job j (set_result [] J) s ∧
       ((completed J = true ∧ (r = None ∨ r ∈ pushed J)) ∨
        (completed J = false ∧ r = Some ErrShutdown)).
Proof.
  intros HI%reachable_Inv H.
  destruct (Wait_spec _ _ _ _ HI H) as (J & HJ & Ha & Hr & Hd & Hs').
  exists J. repeat (split; [done|]).
  destruct (jb_ok _ (Inv_jobs _ HI) _ _ HJ) as [_ _ _ Hp Hres].
  destruct (completed J) eqn:Hc.
  - left. split; [done|].
    apply (tk_out _ (Inv_tasks _ HI) j J); auto. rewrite Hd. by left.
  - right. split; [done|].
    destruct Hres as [[Hx _] | (r' & _ & ?)]; [done | | congruence | done].
    intros Hpe. destruct (Hp Hpe) as [Hx _]. congruence.
Qed.

(** ** Stop and the tasks in flight *)

(** [X3] The workers are signalled to stop only when no task is in flight:
    once [stopWorkers] is closed the WaitGroup counter is zero, the error slot
    and the queue are empty, every admitted job has its outcome, and no worker
    is between the receive of a task and its [Done]. *)
Theorem X3_stop_signal_after_tasks s :
  reachable s → stopWorkers s = true →
  sg s = 0 ∧ err s = None ∧ queue s = [] ∧ sched s = SExit ∧
  (∀ w pc, workers s !! w = Some pc → is_active pc = false) ∧
  (∀ j J, heap s !! j = Some J → admitted J = true → length (delivered J) = 1).
Proof.
  intros HI%reachable_Inv Hst.
  destruct (Inv_shutdown _ HI), (Inv_sg _ HI).
  rewrite sh_sig0 in Hst. apply bool_decide_eq_true in Hst.
  assert (Hs : sched s = SExit).
  { assert (Ha : ackShutdown s = true) by (apply sh_past0; lia).
    rewrite sh_ack0 in Ha. by destruct (sched s). }
  destruct sg_idle0 as [He Hz]; [by rewrite Hs|].
  destruct sh_end0 as [Hq _]; [by rewrite Hs|].
  repeat split; auto.
  - intros w pc Hw. apply (count_if_none is_active (workers s) w); [lia | done].
  - intros j J HJ Ha. apply (resolved_once s j); auto using Inv_jobs.
    unfold pending. rewrite Hq, Hs. intros [Hin | ?]; [|done].
    by apply elem_of_nil in Hin.
Qed.

(** ** Flags and sizes *)

Lemma step_monotone a s s' :
  do_step a s = Some s' →
  maxJobs s' = maxJobs s ∧
  (shouldShutdown s = true → shouldShutdown s' = true) ∧
  (queue_closed s = true → queue_closed s' = true) ∧
  (triggeredShutdown s = true → triggeredShutdown s' = true) ∧
  (ackShutdown s = true → ackShutdown s' = true) ∧
  (stopWorkers s = true → stopWorkers s' = true).
Proof. intros H. step_cases H; simpl; repeat split; auto; congruence. Qed.

(** [X4] Along every execution the number of workers and the capacity of the
    admission queue stay what [New] made them, and the shutdown flag, the
    shutdown-triggered flag and the closed state of the queue, of
    [ackShutdown] and of [stopWorkers] never revert; after a panic the pool
    takes no further step. *)
Theorem X4_flags_monotone acts s s' :
  run acts s = Some s' →
  count s' = count s ∧ maxJobs s' = maxJobs s ∧
  (shouldShutdown s = true → shouldShutdown s' = true) ∧
  (queue_closed s = true → queue_closed s' = true) ∧
  (triggeredShutdown s = true → triggeredShutdown s' = true) ∧
  (ackShutdown s = true → ackShutdown s' = true) ∧
  (stopWorkers s = true → stopWorkers s' = true) ∧
  (crashed s = true → s' = s).
Proof.
  revert s. induction acts as [|a acts IH]; intros s H; simpl in H.
  - simplify_eq. repeat split; auto.
  - destruct (do_step a s) as [s1|] eqn:Hd; [|done].
    destruct (IH _ H) as (Hc & Hm & H1 & H2 & H3 & H4 & H5 & _).
    destruct (step_monotone _ _ _ Hd) as (Hm' & G1 & G2 & G3 & G4 & G5).
    rewrite Hc, Hm, (step_count _ _ _ Hd), Hm'. repeat split; auto.
    intros Hcr. unfold do_step in Hd. by rewrite Hcr in Hd.
Qed.

(** ** A worker that returned early *)

(** [X5] Once a worker has returned through the branch [err != nil] of its
    loop (lines 104-107), it stays returned and [Stop] never returns, in any
    continuation of the execution. *)
Theorem X5_early_return_blocks_Stop s w acts s' :
  reachable s → workers s !! w = Some WReturned → run acts s = Some s' →
  workers s' !! w = Some WReturned ∧ stopper s' ≠ StReturned.
Proof.
  intros Hr Hw Hrun.
  assert (Hw' : workers s' !! w = Some WReturned).
  { apply (run_preserves (λ s, workers s !! w = Some WReturned) acts s);
      auto using reachable_Inv.
    intros a s1 s2 _ ? ?. by eapply returned_forever. }
  split; [done|]. apply (returned_worker_blocks_Stop s' w); [|done].
  destruct Hr as (n & m & acts0 & H0). exists n, m, (acts0 ++ acts).
  by rewrite run_app, H0.
Qed.

(** ** Order of resolution *)

Lemma step_queue_shape a s s' :
  do_step a s = Some s' →
  queue s' = queue s ∨
  (∃ j, queue s = j :: queue s' ∧ sched_job (sched s) = None ∧
        sched_job (sched s') = Some j) ∨
  (∃ j, queue s' = queue s ++ [j]).
Proof.
  intros H. step_cases H; simpl; auto.
  - right; left. exists n. rewrite ?Heqs0. auto.
  - right; right. eauto.
Qed.

Lemma ahead_step j1 j2 a s s' :
  Inv s → ahead j1 j2 s → do_step a s = Some s' → ahead j1 j2 s'.
Proof.
  intros HI Hc H.
  destruct Hc as [(q1 & q2 & q3 & Hq) | [[Hs Hin] | (J1 & HJ1 & Hd)]].
  - destruct (step_queue_shape _ _ _ H) as [Hq' | [(j & Hq' & _ & Hs') | (j & Hq')]].
    + left. exists q1, q2, q3. congruence.
    + rewrite Hq in Hq'. destruct q1 as [|x q1]; simplify_eq/=.
      * right; left. split; [done|]. rewrite <-H1.
        apply elem_of_app. right. by left.
      * left. eauto.
    + left. exists q1, q2, (q3 ++ [j]).
      rewrite Hq', Hq. by rewrite <-!app_assoc, <-!app_comm_cons, <-!app_assoc.
  - destruct (jb_alloc _ (Inv_jobs _ HI) j1) as [J1 HJ1]; [by right|].
    destruct (step_heap _ _ _ _ _ H HJ1) as (J1' & HJ1' & [_ _ _ Hdel]).
    destruct Hdel as [(_ & _ & Hs') | [(_ & Hd & _) | (_ & Hd & _)]].
    + right; left. split; [auto|].
      destruct (step_queue_shape _ _ _ H) as [-> | [(j & _ & ? & _) | (j & ->)]];
        [done | congruence | apply elem_of_app; by left].
    + right; right. exists J1'. split; [done|]. rewrite Hd. by destruct (delivered J1).
    + right; right. exists J1'. split; [done|]. rewrite Hd. by destruct (delivered J1).
  - right; right.
    destruct (step_heap _ _ _ _ _ H HJ1) as (J1' & HJ1' & [_ _ _ Hdel]).
    exists J1'. split; [done|].
    destruct Hdel as [(-> & _) | [(_ & -> & _) | (_ & -> & _)]];
      [done | by destruct (delivered J1) ..].
Qed.

(** [X6] Jobs are resolved in the order of the admission queue: if [j1] stands
    before [j2] in the queue, then in every later state in which the scheduler
    has taken [j2], or [j2] has an outcome, [j1] already has its outcome. *)
Theorem X6_fifo s j1 j2 q1 q2 q3 acts s' :
  reachable s → queue s = q1 ++ j1 :: q2 ++ j2 :: q3 →
  run acts s = Some s' →
  (sched_job (sched s') = Some j2 ∨
   ∃ J2, heap s' !! j2 = Some J2 ∧ delivered J2 ≠ []) →
  ∃ J1, heap s' !! j1 = Some J1 ∧ delivered J1 ≠ [].
Proof.
  intros HI%reachable_Inv Hq Hrun Hj2.
  assert (ahead j1 j2 s') as Ha.
  { apply (run_preserves (ahead j1 j2) acts s); auto.
    - intros a sa sb ? ? ?. by eapply ahead_step.
    - left. eauto. }
  assert (HI' : Inv s') by (by eapply Inv_run).
  pose proof (Inv_jobs _ HI') as Hjb.
  assert (Hin : j2 ∈ queue s' → False).
  { intros Hin. destruct Hj2 as [Hs | (J2 & HJ2 & Hd)].
    - by apply (jb_sched _ Hjb j2).
    - destruct (jo_pend _ _ _ (jb_ok _ Hjb _ _ HJ2)) as [? _]; [by left | done]. }
  destruct Ha as [(p1 & p2 & p3 & Hq') | [[_ Hin'] | ?]]; [| by destruct Hin | done].
  destruct Hin. rewrite Hq'. apply elem_of_app. right. right.
  apply elem_of_app. right. by left.
Qed.

(** ** [Wait] is one-shot *)

Lemma step_result a s s' j J :
  do_step a s = Some s' → heap s !! j = Some J →
  ∃ J', heap s' !! j = Some J' ∧
    (delivered J = [] ∨ delivered J' ≠ []) ∧
    (result J' = result J ∨ (∃ r, result J = r :: result J') ∨
     sched_job (sched s) = Some j).
Proof.
  intros H HJ. step_cases H; simpl.
  all: try (exists J; split; [done|]; split; [destruct (delivered J); auto | auto]; fail).
  all: try (exists J; split; [by apply lookup_app_l_Some|];
            split; [destruct (delivered J); auto | auto]; fail).
  all: match goal with
       | |- context [<[?j1 := ?J1]> (heap _)] =>
           destruct (decide (j = j1)) as [->|Hne];
           [ exists J1; split;
             [apply list_lookup_insert_eq; by eapply lookup_lt_Some|]
           | exists J; split; [by rewrite list_lookup_insert_ne|] ]
       end; simplify_eq; simpl.
  all: try (split; [destruct (delivered J); auto | auto]; fail).
  all: try (split; [destruct (delivered _); simpl; auto | auto]; fail).
  split; [destruct (delivered _); auto | right; left; eauto].
Qed.

Lemma waited_step j a s s' :
  Inv s → waited j s → do_step a s = Some s' → waited j s'.
Proof.
  intros HI (J & HJ & Hr & Hd) H.
  destruct (step_result _ _ _ _ _ H HJ) as (J' & HJ' & Hd' & Hr').
  exists J'. split; [done|]. split; [|by destruct Hd'].
  destruct Hr' as [-> | [(r & Hx) | Hs]]; [done | congruence |].
  destruct (pending_undelivered s j J) as [? _]; auto. done.
Qed.

(** [X7] The outcome of a job can be received once: after [Wait] has returned
    for a job, every later [Wait] on that job blocks, whatever happens in
    between. *)
Theorem X7_Wait_once s j r s1 acts s2 :
  reachable s → crashed s = false → Wait j s = Some (r, s1) →
  run acts s1 = Some s2 → Wait j s2 = None.
Proof.
  intros HI%reachable_Inv Hc HW Hrun.
  assert (Hstep : do_step (AWait j) s = Some s1).
  { unfold do_step. rewrite Hc, HW. done. }
  assert (HI1 : Inv s1) by (by eapply Inv_step).
  destruct (Wait_spec _ _ _ _ HI HW) as (J & HJ & _ & _ & Hd & ->).
  assert (waited j s2) as (J2 & HJ2 & Hr2 & _).
  { apply (run_preserves (waited j) acts (set_job j (set_result [] J) s)); auto.
    - intros a sa sb ? ? ?. by eapply waited_step.
    - exists (set_result [] J). split; [|split; [done|]].
      + apply list_lookup_insert_eq. by eapply lookup_lt_Some.
      + simpl. by rewrite Hd. }
  unfold Wait. rewrite HJ2. simpl. rewrite Hr2. by destruct (negb (admitted J2)).
Qed.

(** ** Buffers, finalization and the callback *)

Lemma inv_buffers_New n m : inv_buffers (New n m).
Proof. constructor; simpl; [left; lia | done]. Qed.

Lemma can_send_bound {A} (buf : list A) cap w :
  can_send buf cap w = true → length buf < cap ∨ (buf = [] ∧ w = true).
Proof.
  unfold can_send. intros [Hl | [Hn Hw]%andb_true_iff]%orb_true_iff.
  - left. by apply Nat.ltb_lt.
  - right. by destruct buf.
Qed.

Lemma inv_buffers_step a s s' :
  Inv s → inv_buffers s → do_step a s = Some s' → inv_buffers s'.
Proof.
  intros HI [Hq Hj] H. step_cases H.
  all: constructor; simpl; [|intros j' J' HJ'].
  all: try (apply list_lookup_insert_Some in HJ' as [(<- & <- & _) | [Hne HJ']]).
  all: try (apply lookup_snoc_fresh in HJ' as [HJ' | [-> ->]]).
  all: try match goal with
         | H : heap _ !! ?j = Some ?J |- job_final _ ?j _ =>
             pose proof (Hj j J H) as []; constructor; simpl
         end.
  all: rewrite ?Heqs0 in *; simpl in *.
  all: try done.
  all: try (intuition congruence).
  - left. rewrite ?Heql. simpl. lia.
  - left. rewrite ?Heql in Hq. simpl in Hq. destruct Hq as [? | [? _]]; lia.
  - destruct jf_cap0 as [? | [Hl [= <-]]]; [by left|].
    left. simplify_eq. rewrite ?Heql in Hl. simpl in Hl. lia.
  - left. rewrite ?Heql in jf_cap0. simpl in jf_cap0.
    destruct jf_cap0 as [? | [? _]]; lia.
  - intros [? | [= <-]]; [done|]. apply jf_wait0. by left.
  - assert (Hfresh : sched_job (sched s) ≠ Some (length (heap s))).
    { intros Hs. destruct (jb_alloc _ (Inv_jobs _ HI) (length (heap s))) as [J HJ];
        [by right|]. apply lookup_lt_Some in HJ. lia. }
    constructor; simpl; try done.
    + intros [Hs | Hs]; rewrite Hs in Hfresh; by destruct Hfresh.
    + left. lia.
  - match goal with H : can_send _ _ _ = true |- _ =>
      apply can_send_bound in H as [? | [Hn Hr]] end.
    + left. rewrite length_app. simpl. lia.
    + right. rewrite Hn. split; [done|]. by destruct (sched s).
  - match goal with H : can_send _ _ _ = true |- _ =>
      apply can_send_bound in H as [? | [Hn Hr]] end.
    + left. rewrite length_app. simpl. lia.
    + right. rewrite Hn. split; [done|].
      destruct (sched s); simpl in Hr; try done.
      by apply bool_decide_eq_true in Hr as ->.
Qed.

Lemma reachable_buffers s : reachable s → inv_buffers s.
Proof.
  intros (n & m & acts & H).
  apply (run_preserves inv_buffers acts (New n m));
    auto using Inv_New, inv_buffers_New.
  intros a s1 s2 ? ? ?. by eapply inv_buffers_step.
Qed.


Lemma run_maxJobs acts s s' : run acts s = Some s' → maxJobs s' = maxJobs s.
Proof.
  revert s. induction acts as [|a acts IH]; intros s H; simpl in H.
  - by simplify_eq.
  - destruct (do_step a s) as [s1|] eqn:Hd; [|done].
    rewrite (IH _ H). by destruct (step_monotone _ _ _ Hd).
Qed.

(** [X8] The buffers stay within their capacities: the admission queue of a
    pool built with [maxjobs] holds at most [maxjobs] jobs, and the task
    channel of a job at most [tasks_cap] tasks; the only excess is the one
    element of a send that meets the scheduler parked on the receive (the
    case of capacity zero). *)
Theorem X8_bounded_buffers nworkers maxjobs acts s :
  run acts (New nworkers maxjobs) = Some s →
  (length (queue s) ≤ maxjobs ∨ (length (queue s) = 1 ∧ sched s = SRange)) ∧
  (1 ≤ maxjobs → length (queue s) ≤ maxjobs) ∧
  (∀ j J, heap s !! j = Some J →
     (length (tasks J) ≤ tasks_cap J ∨
      (length (tasks J) = 1 ∧ sched s = SDrain j)) ∧
     (1 ≤ tasks_cap J → length (tasks J) ≤ tasks_cap J)).
Proof.
  intros Hrun. pose proof (run_maxJobs _ _ _ Hrun) as Hm. simpl in Hm.
  apply run_reachable, reachable_buffers in Hrun as [Hq Hj].
  rewrite Hm in Hq. split; [done|]. split; [destruct Hq as [? | [? _]]; lia|].
  intros j J HJ. destruct (Hj _ _ HJ) as [_ _ _ _ Hc].
  split; [done|]. destruct Hc as [? | [? _]]; lia.
Qed.

(** [X9] The callback given to [Job.Done] runs only after the completion
    signal of its job has fired, hence only for a job that was admitted and
    finalized and whose task channel the scheduler has emptied. *)
Theorem X9_callback_after_completion s j J :
  reachable s → heap s !! j = Some J → callback J = CbCalled →
  completed J = true ∧ tasks_closed J = true ∧ tasks J = [] ∧
  admitted J = true.
Proof.
  intros Hr HJ Hcb.
  destruct (bf_jobs _ (reachable_buffers _ Hr) _ _ HJ) as [Hca _ Hco _ _].
  specialize (Hca Hcb). destruct (Hco Hca) as [? ?].
  destruct (jb_ok _ (Inv_jobs _ (reachable_Inv _ Hr)) _ _ HJ) as [_ _ Hn _ _].
  repeat split; auto.
  destruct (admitted J); [done|]. destruct (Hn eq_refl) as (_ & _ & ? & _). congruence.
Qed.

(** [X10] For a job that is in the admission queue when the shutdown flag is
    set, the callback given to [Job.Done] never runs: its goroutine stays
    blocked on [j.completed] in every later state. *)
Theorem X10_no_callback_for_rejected s j acts s' J' :
  reachable s → shouldShutdown s = true → j ∈ queue s →
  run acts s = Some s' → heap s' !! j = Some J' →
  callback J' ≠ CbCalled ∧ Done_callback j s' = None.
Proof.
  intros Hr Hf Hq Hrun HJ'.
  pose proof (reachable_Inv _ Hr) as HI.
  destruct (jb_alloc _ (Inv_jobs _ HI) j) as [J HJ]; [by left|].
  assert (rejected j s') as (_ & J1 & HJ1 & Hco & _).
  { apply (run_preserves (rejected j) acts s); auto.
    - intros a s1 s2 ? ? ?. by eapply rejected_step.
    - split; [done|]. exists J. split; [done|].
      destruct (jb_ok _ (Inv_jobs _ HI) _ _ HJ) as [_ _ _ Hp _].
      destruct Hp as [? ?]; [by left|]. auto. }
  simplify_eq.
  assert (Hr' : reachable s').
  { destruct Hr as (n & m & acts0 & H0). exists n, m, (acts0 ++ acts).
    by rewrite run_app, H0. }
  destruct (bf_jobs _ (reachable_buffers _ Hr') _ _ HJ') as [Hca _ _ _ _].
  split.
  - intros Hcb. rewrite (Hca Hcb) in Hco. done.
  - unfold Done_callback. rewrite HJ'. simpl. rewrite Hco. by destruct (callback J').
Qed.

(** [X11] The scheduler delivers the outcome of a job only when all its tasks
    are done: when it enters the critical section that ends the execution,
    the task channel of the job is closed and empty, the WaitGroup counter is
    zero and no worker is between the receive of a task and its [Done]; and a
    job whose completion signal has fired has its task channel closed and
    empty. *)
Theorem X11_wait_for_all s j J :
  reachable s → heap s !! j = Some J →
  (sched s = SFinish j →
     tasks_closed J = true ∧ tasks J = [] ∧ sg s = 0 ∧
     ∀ w pc, workers s !! w = Some pc → is_active pc = false) ∧
  (completed J = true → tasks_closed J = true ∧ tasks J = []).
Proof.
  intros Hr HJ.
  destruct (bf_jobs _ (reachable_buffers _ Hr) _ _ HJ) as [_ _ Hco Hw _].
  pose proof (Inv_sg _ (reachable_Inv _ Hr)) as [Hcnt _ Hfin].
  split; [|done]. intros Hs.
  destruct Hw as [? ?]; [by right|]. specialize (Hfin _ Hs).
  repeat split; auto.
  intros w pc Hpc. apply (count_if_none is_active (workers s) w); [lia | done].
Qed.

(** ** Completion of [Stop] *)

Lemma reachable_run acts s s' : reachable s → run acts s = Some s' → reachable s'.
Proof.
  intros (n & m & acts0 & H0) H. exists n, m, (acts0 ++ acts).
  by rewrite run_app, H0.
Qed.

Lemma count_if_missing {A} (p : A → bool) (l : list A) :
  count_if p l < length l → ∃ i x, l !! i = Some x ∧ p x = false.
Proof.
  induction l as [|z l IH]; simpl; [lia|]. intros Hlt.
  destruct (p z) eqn:Hz.
  - destruct IH as (i & x & Hi & Hx); [lia|]. by exists (S i), x.
  - by exists 0, z.
Qed.

Lemma Stop_completes_from k s i :
  count s - i = k →
  reachable s → crashed s = false → stopper s = StRecv i →
  (∀ w, workers s !! w ≠ Some WReturned) →
  ∃ acts s', run acts s = Some s' ∧ stopper s' = StReturned ∧ crashed s' = false.
Proof.
  revert s i. induction k as [|k IH]; intros s i Hk Hr Hc Hs Hnr.
  - exists [AStop]. eexists. simpl. unfold do_step, Stop. rewrite Hc, Hs.
    rewrite bool_decide_eq_false_2 by lia. simpl. eauto.
  - pose proof (reachable_Inv _ Hr) as HI.
    destruct (Inv_shutdown _ HI), (Inv_sg _ HI).
    assert (Hst : stopWorkers s = true) by (by rewrite sh_sig0, Hs).
    assert (Hz : sg s = 0).
    { assert (Ha : ackShutdown s = true) by (apply sh_past0; rewrite Hs; simpl; lia).
      rewrite sh_ack0 in Ha. destruct sg_idle0 as [_ ?]; [by destruct (sched s)|done]. }
    destruct (count_if_missing is_stopped (workers s)) as (w & pc & Hw & Hpc).
    { rewrite (sh_cnt0 i Hs). lia. }
    assert (Hact : is_active pc = false).
    { apply (count_if_none is_active (workers s) w); [lia | done]. }
    assert (Hlt : w < length (workers s)) by (by eapply lookup_lt_Some).
    assert (Hs1 : set_worker w WStopping s = s ∨
                  do_step (AstartWorker w) s = Some (set_worker w WStopping s)).
    { destruct pc; try done.
      - right. unfold do_step, startWorker. rewrite Hc, Hw. simpl. by rewrite Hst.
      - left. unfold set_worker. rewrite list_insert_id by done. by destruct s.
      - by destruct (Hnr w). }
    set (s1 := set_worker w WStopping s) in *.
    set (s2 := set_stopper (StRecv (S i)) (set_worker w WStopped s1)).
    assert (H2 : do_step (AStop_recv w) s1 = Some s2).
    { unfold do_step, Stop_recv. simpl. rewrite Hc, Hs.
      rewrite list_lookup_insert_eq by done.
      rewrite bool_decide_eq_true_2 by lia. done. }
    assert (∃ acts, run acts s = Some s2) as [acts Hrun].
    { destruct Hs1 as [Heq | Hd].
      - exists [AStop_recv w]. simpl. rewrite Heq in H2. by rewrite H2.
      - exists [AstartWorker w; AStop_recv w]. simpl. rewrite Hd. simpl. by rewrite H2. }
    destruct (IH s2 (S i)) as (acts' & s' & Hrun' & Hfin); simpl.
    + lia.
    + by eapply reachable_run.
    + done.
    + done.
    + intros w'. rewrite !list_lookup_insert_Some. intros [(_ & ? & _) | [_ Hx]]; [done|].
      destruct Hx as [(_ & ? & _) | [_ Hx]]; [done|]. by apply (Hnr w').
    + exists (acts ++ acts'), s'. split; [|done]. by rewrite run_app, Hrun.
Qed.

(** [X12] When no worker has returned through the branch [err != nil], [Stop]
    can complete: from every reachable state without panic in which [Stop] has
    closed [stopWorkers], some execution leads to the return of [Stop]. *)
Theorem X12_Stop_can_complete s i :
  reachable s → crashed s = false → stopper s = StRecv i →
  (∀ w, workers s !! w ≠ Some WReturned) →
  ∃ acts s', run acts s = Some s' ∧ stopper s' = StReturned ∧ crashed s' = false.
Proof. intros. by eapply (Stop_completes_from (count s - i)). Qed.

(** ** A pool without workers *)

Lemma inv_no_worker_New m : inv_no_worker (New 0 m).
Proof. constructor; simpl; done. Qed.

Lemma inv_no_worker_step a s s' :
  Inv s → inv_no_worker s → do_step a s = Some s' → inv_no_worker s'.
Proof.
  intros HI [Hw Hj] H. step_cases H.
  all: try (rewrite Hw in *; simplify_eq/=; fail).
  all: constructor; simpl; [done|intros j' J' HJ'].
  all: try (apply list_lookup_insert_Some in HJ' as [(<- & <- & _) | [Hne HJ']]).
  all: try (apply lookup_snoc_fresh in HJ' as [HJ' | [-> ->]]).
  all: try match goal with
         | H : heap _ !! ?j = Some ?J |- job_unserved _ ?j _ =>
             pose proof (Hj j J H) as [Hh Hd]; constructor; simpl
         end.
  all: rewrite ?Heqs0 in *; simpl in *.
  all: repeat case_bool_decide; simplify_eq/=.
  all: try done.
  all: try (intuition congruence).
  - intros [? | [[= <-] | ?]]; [done | |]; apply Hd; auto.
  - assert (Hfresh : sched_job (sched s) ≠ Some (length (heap s))).
    { intros Hs. destruct (jb_alloc _ (Inv_jobs _ HI) (length (heap s))) as [J HJ];
        [by right|]. apply lookup_lt_Some in HJ. lia. }
    constructor; simpl.
    + destruct (sched s); simpl in *; try done; by case_bool_decide; simplify_eq.
    + intros [Hs | [Hs | ?]]; [| |done]; rewrite Hs in Hfresh; by destruct Hfresh.
  - rewrite Hh. by destruct (sched_holds j (sched s)).
Qed.

(** [X13] A pool built with zero workers never runs a task: a job to which a
    task was pushed is never completed, so that [Wait] on it blocks forever or
    returns [ErrShutdown]; its first task stays with the scheduler and the
    others in its task channel. *)
Theorem X13_no_worker maxjobs acts s j J :
  run acts (New 0 maxjobs) = Some s → heap s !! j = Some J → pushed J ≠ [] →
  completed J = false ∧
  (delivered J = [] ∨ delivered J = [Some ErrShutdown]) ∧
  (∀ r s', Wait j s = Some (r, s') → r = Some ErrShutdown) ∧
  (tasks J = pushed J ∨ ∃ t, pushed J = t :: tasks J ∧ sched_held (sched s) = Some t).
Proof.
  intros Hrun HJ Hpu.
  assert (HI : Inv s) by (by eapply reachable_Inv, run_reachable).
  assert (inv_no_worker s) as [_ Hnw].
  { apply (run_preserves inv_no_worker acts (New 0 maxjobs));
      auto using Inv_New, inv_no_worker_New.
    intros a s1 s2 ? ? ?. by eapply inv_no_worker_step. }
  destruct (Hnw _ _ HJ) as [Ht Hd].
  assert (Hco : completed J = false).
  { destruct (completed J) eqn:Hc; [|done]. destruct Hd as [? _]; auto. done. }
  assert (Hdel : delivered J = [] ∨ delivered J = [Some ErrShutdown]).
  { destruct (jb_ok _ (Inv_jobs _ HI) _ _ HJ) as [_ _ Hn Hp Hr].
    destruct (admitted J) eqn:Ha; [|left; by destruct (Hn eq_refl) as (_ & ? & _)].
    destruct (decide (j ∈ queue s)) as [Hin|Hin].
    { left. by destruct Hp as [? _]; [left|]. }
    destruct (decide (sched_job (sched s) = Some j)) as [Hs|Hs].
    { left. by destruct Hp as [? _]; [right|]. }
    destruct Hr as [[? _] | (r & _ & ?)]; auto; [|congruence].
    intros [?|?]; done. }
  repeat split; auto.
  - intros r s' HW. destruct (Wait_spec _ _ _ _ HI HW) as (J1 & HJ1 & _ & _ & Hd1 & _).
    simplify_eq. destruct Hdel as [Hx|Hx]; rewrite Hx in Hd1; by simplify_eq.
  - destruct (sched s); simpl in *; auto;
      case_bool_decide; simplify_eq; eauto.
Qed.


(** ** Failures are not lost *)

Lemma inv_failures_New n m : inv_failures (New n m).
Proof. intros j J. simpl. done. Qed.

Lemma inv_failures_frame s s' :
  heap s' = heap s →
  (∀ j, draining (sched s) = Some j → draining (sched s') = Some j) →
  (∀ e, failing s e → failing s' e) →
  inv_failures s → inv_failures s'.
Proof.
  intros Hh Hd Hf Hinv j J. rewrite Hh. intros HJ.
  destruct (Hinv j J HJ) as [Ho Hc]. constructor; [|done].
  intros Hco e He. destruct (Ho Hco e He) as [? | [? ?]]; auto.
Qed.

Lemma inv_failures_update s s' j J J' :
  heap s !! j = Some J → heap s' = <[j := J']> (heap s) →
  sched s' = sched s → err s' = err s → workers s' = workers s →
  completed J' = completed J → delivered J' = delivered J →
  (∀ e, Some e ∈ tasks J → Some e ∈ tasks J') →
  (∀ e, Some e ∈ pushed J' → Some e ∈ pushed J ∨
        (completed J = false ∧ Some e ∈ tasks J')) →
  inv_failures s → inv_failures s'.
Proof.
  intros HJ Hh Hs He Hw Hco Hd Ht Hp Hinv j0 J0. rewrite Hh.
  assert (Hf : ∀ e, failing s e → failing s' e).
  { intros e. unfold failing. by rewrite Hs, He, Hw. }
  intros [(<- & <- & _) | [_ HJ0]]%list_lookup_insert_Some.
  - destruct (Hinv j J HJ) as [Ho Hc]. constructor; rewrite Hco, ?Hd, ?Hs.
    + intros Hx e [Hin | [_ ?]]%Hp; [|by left].
      destruct (Ho Hx e Hin) as [? | [? ?]]; auto.
    + intros Hx e [Hin | [? _]]%Hp; [eauto | congruence].
  - destruct (Hinv j0 J0 HJ0) as [Ho Hc]. constructor; [|done]. rewrite Hs.
    intros Hx e Hin. destruct (Ho Hx e Hin) as [? | [? ?]]; auto.
Qed.

Ltac failing_sub :=
  let e0 := fresh "e0" in
  let w0 := fresh "w0" in
  let pc0 := fresh "pc0" in
  let Hw0 := fresh "Hw0" in
  let Hh0 := fresh "Hh0" in
  unfold failing; simpl;
  intros e0 [? | [(w0 & pc0 & Hw0 & Hh0) | Hh0]];
  [ left; first [ done | congruence ]
  | lazymatch goal with
    | |- context [<[?w := _]> (workers _)] =>
        destruct (decide (w0 = w)) as [->|];
        [ simplify_eq/=;
          first [ left; first [ done | congruence ]
                | right; left; eexists _, _; split;
                  [ apply list_lookup_insert_eq; by eapply lookup_lt_Some | done ] ]
        | right; left; exists w0, pc0; by rewrite list_lookup_insert_ne ]
    | |- _ => right; left; by exists w0, pc0
    end
  | use_eqs;
    repeat match goal with H : sched _ = _ |- _ => rewrite H in Hh0 end;
    simplify_eq/=;
    first [ by right; right
          | right; left; eexists _, _; split;
            [ apply list_lookup_insert_eq; by eapply lookup_lt_Some | done ] ] ].

(** The other jobs when the scheduler works on job [j]. *)
Lemma job_failures_other s s' j j0 J0 :
  sched_job (sched s) = Some j → j0 ≠ j →
  job_failures s j0 J0 → job_failures s' j0 J0.
Proof.
  intros Hs Hne [Ho Hc]. constructor; [|done].
  intros Hx e He. destruct (Ho Hx e He) as [? | [Hd _]]; [by left|].
  destruct (sched s); simplify_eq/=.
Qed.

Lemma inv_failures_step a s s' :
  Inv s → inv_buffers s → inv_failures s → do_step a s = Some s' → inv_failures s'.
Proof.
  intros HI Hbf Hinv H. step_cases H; try done.
  all: try (apply (inv_failures_frame s);
              [done | simpl; use_eqs; simpl; intros; simplify_eq/=; done
               | failing_sub | done]).
  all: try (eapply (inv_failures_update s);
            [eassumption | reflexivity | done | done | done | done | done
            | simpl; intros ?; rewrite ?elem_of_app; tauto
            | simpl; intros ?; rewrite ?elem_of_app; tauto
            | done ]).
  - (* the shutdown error is sent to a job that was never executed *)
    intros j' J'. simpl.
    intros [(<- & <- & _) | [Hne HJ']]%list_lookup_insert_Some.
    + destruct (pending_undelivered s j j0 HI Heqo) as (_ & Hco & _); [by rewrite Heqs0|].
      destruct (Hinv j j0 Heqo) as [Ho _]. constructor; simpl; [|congruence].
      intros _ e He. destruct (Ho Hco e He) as [? | [Hd _]]; [by left|].
      rewrite Heqs0 in Hd. done.
    + eapply (job_failures_other s); [by rewrite Heqs0 | done | by apply Hinv].
  - (* the scheduler receives a task of the job *)
    intros j' J'. simpl.
    intros [(<- & <- & _) | [Hne HJ']]%list_lookup_insert_Some.
    + destruct (Hinv j j0 Heqo) as [Ho Hc]. constructor; simpl; [|done].
      intros Hx e He. destruct (Ho Hx e He) as [Hin | [_ Hf]].
      * rewrite Heql in Hin. apply elem_of_cons in Hin as [<- | Hin]; [|by left].
        right. split; [done|]. right. by right.
      * right. split; [done|]. destruct Hf as [? | [? | Hf]].
        -- by left.
        -- right. by left.
        -- rewrite Heqs0 in Hf. done.
    + destruct (Hinv j' J' HJ') as [Ho Hc]. constructor; [|done].
      intros Hx e He. destruct (Ho Hx e He) as [? | [Hd _]]; [by left|].
      rewrite Heqs0 in Hd. simplify_eq/=.
  - (* the job is completed: a failure is in the error slot by now *)
    intros j' J'. simpl.
    intros [(<- & <- & _) | [Hne HJ']]%list_lookup_insert_Some.
    + destruct (pending_undelivered s j j0 HI Heqo) as (Hd & Hco & _); [by rewrite Heqs0|].
      destruct (Hinv j j0 Heqo) as [Ho _]. constructor; simpl; [done|].
      intros _ e He. rewrite Hd. simpl.
      destruct (jf_wait _ _ _ (bf_jobs _ Hbf _ _ Heqo)) as [_ Ht]; [by right|].
      destruct (Ho Hco e He) as [Hin | [_ [Hf | [(w & pc & Hw & Hh) | Hf]]]].
      * rewrite Ht in Hin. by apply elem_of_nil in Hin.
      * destruct (err s) as [e'|]; [by exists e' | done].
      * pose proof (sg_fin _ (Inv_sg _ HI) _ Heqs0) as Hz.
        pose proof (sg_cnt _ (Inv_sg _ HI)) as Hcnt.
        pose proof (count_if_pos is_active _ _ _ Hw (held_active _ _ Hh)). lia.
      * rewrite Heqs0 in Hf. done.
    + eapply (job_failures_other s); [by rewrite Heqs0 | done | by apply Hinv].
  - (* a fresh job has no task *)
    intros j' J'. simpl.
    intros [HJ' | [_ HJ']]%lookup_app_Some.
    + destruct (Hinv j' J' HJ') as [Ho Hc]. by constructor.
    + apply list_lookup_singleton_Some in HJ' as [_ <-]. constructor; simpl; intros _ e He;
        by apply elem_of_nil in He.
  - (* Go pushes a task on an open channel *)
    assert (completed j0 = false) as Hco.
    { destruct (completed j0) eqn:Hx; [|done].
      destruct (jf_compl _ _ _ (bf_jobs _ Hbf _ _ Heqo) Hx). congruence. }
    eapply (inv_failures_update s);
      [eassumption | reflexivity | done | done | done | done | done | simpl .. | done].
    + intros e. rewrite elem_of_app. tauto.
    + intros e. rewrite !elem_of_app. tauto.
Qed.

Lemma reachable_failures s : reachable s → inv_failures s.
Proof.
  intros (n & m & acts & Hrun).
  enough (inv_buffers s ∧ inv_failures s) as [_ ?]; [done|].
  revert Hrun. generalize (Inv_New n m) (inv_buffers_New n m) (inv_failures_New n m).
  generalize (New n m). intros s0 HI Hb Hf Hrun.
  revert s0 HI Hb Hf Hrun. induction acts as [|a acts IH]; intros s0 HI Hb Hf Hrun.
  - simpl in Hrun. by simplify_eq.
  - simpl in Hrun. destruct (do_step a s0) as [s1|] eqn:Hst; [|done].
    apply (IH s1); [by eapply Inv_step | by eapply inv_buffers_step
                   | by eapply inv_failures_step | exact Hrun].
Qed.

(** [X14] No failure is lost: when a job has been executed to completion and
    one of the tasks pushed to it fails, its outcome is an error, and so is
    the value that [Wait] returns; a task that was skipped because an earlier
    one failed does not turn the outcome into [nil]. *)
Theorem X14_failure_not_lost s j J e :
  reachable s → heap s !! j = Some J → completed J = true → Some e ∈ pushed J →
  (∃ e', delivered J = [Some e'] ∧ Some e' ∈ pushed J) ∧
  (∀ r s', Wait j s = Some (r, s') → ∃ e', r = Some e').
Proof.
  intros Hr HJ Hc He.
  destruct (reachable_failures s Hr j J HJ) as [_ Hd].
  destruct (Hd Hc e He) as (e' & Hd').
  pose proof (reachable_Inv _ Hr) as HI.
  assert (Some e' ∈ pushed J) as Hin.
  { destruct (tk_out _ (Inv_tasks _ HI) j J (Some e') HJ Hc) as [? | ?]; try done.
    rewrite Hd'. by left. }
  split; [by exists e'|].
  intros r s' HW. destruct (Wait_spec s j r s' HI HW) as (J0 & HJ0 & _ & _ & Hres & _).
  simplify_eq. exists e'. congruence.
Qed.

End Workers.

(** * Concrete executions

    The executions below instantiate the type of errors with strings;
    [ErrShutdown] is the string "shutdown". *)

(** [C1] On a pool of one worker, a job with the tasks "fail with x" and
    "succeed" is executed; the worker runs the first task and records "x",
    receives the second, finds the slot occupied and leaves through the branch
    of line 104: it decrements the WaitGroup and returns.  No stop signal was
    sent, yet the worker takes no further step.  The job completes with "x".
    A second job with one task is then submitted: the scheduler reaches the
    send on [w.tasks] and no worker can ever receive it. *)
Lemma C1_skip_branch_ends_worker :
  ∃ s1 s2 : Workers,
    run "shutdown"
      [ANewJob 2; ANewJob_send 0; AGo 0 (Some "x"); AGo 0 None; ADone 0 false;
       AprocessQueue; AprocessQueue; AprocessQueue; AprocessQueue; Ahandoff 0;
       AstartWorker 0; AstartWorker 0; AstartWorker 0; AstartWorker 0;
       AprocessQueue; AprocessQueue; Ahandoff 0;
       AstartWorker 0; AstartWorker 0] (New 1 4) = Some s1 ∧
    workers s1 = [WReturned] ∧ stopWorkers s1 = false ∧ crashed s1 = false ∧
    do_step "shutdown" (AstartWorker 0) s1 = None ∧
    run "shutdown"
      [AprocessQueue; AprocessQueue; AprocessQueue;
       ANewJob 1; ANewJob_send 1; AGo 1 None;
       ADone 1 false; AprocessQueue; AprocessQueue; AprocessQueue; AprocessQueue]
      s1 = Some s2 ∧
    (delivered <$> heap s2 !! 0) = Some [Some "x"] ∧
    sched s2 = SSend 1 None ∧ crashed s2 = false ∧
    (∀ w, do_step "shutdown" (Ahandoff w) s2 = None) ∧
    (∀ w, do_step "shutdown" (AstartWorker w) s2 = None).
Proof.
  eexists _, _. split; [vm_compute; reflexivity|].
  repeat (split; [vm_compute; reflexivity|]).
  split; intros [|[|w]]; reflexivity.
Qed.

(** [C9] [NewJob] reads the flag (unset) and allocates its job; [Stop] sets the
    flag and closes the queue; the send of line 178 then panics. *)
Lemma C9_send_on_closed_queue_panics :
  ∃ s0 s : Workers,
    run "shutdown" [ANewJob 2; AStop; AStop] (New 1 4) = Some s0 ∧
    crashed s0 = false ∧ queue_closed s0 = true ∧
    heap s0 = [fresh_job 2] ∧
    do_step "shutdown" (ANewJob_send 0) s0 = Some s ∧
    crashed s = true ∧ queue s = [] ∧ heap s = [fresh_job 2].
Proof.
  eexists _, _. split; [vm_compute; reflexivity|].
  repeat (split; [reflexivity|]). reflexivity.
Qed.

(** [C2] A job is admitted, [Stop] sets the flag, the scheduler dequeues the
    job and sends [ErrShutdown] on its result channel: the outcome is
    delivered and the completion signal has not fired. *)
Lemma C2_counterexample :
  ¬ (∀ (s : Workers) j J,
       reachable "shutdown" s → heap s !! j = Some J →
       delivered J ≠ [] → completed J = true).
Proof.
  intros H.
  assert (Hr : ∃ s : Workers,
            run "shutdown"
              [ANewJob 0; ANewJob_send 0; AStop;
               AprocessQueue; AprocessQueue; AprocessQueue] (New 1 4) = Some s).
  { eexists. vm_compute. reflexivity. }
  destruct Hr as [s Hs].
  assert (Hreach : reachable "shutdown" s) by (by eexists _, _, _).
  vm_compute in Hs. injection Hs as <-.
  specialize (H _ 0 _ Hreach eq_refl). simpl in H. discriminate H. discriminate.
Qed.

(** Run the execution named in the goal and keep its result as [Hrun], and
    [Hreach] for its reachability. *)
Ltac run_witness :=
  lazymatch goal with
  | |- ∃ s, run ?E ?tr (New ?n ?m) = Some s ∧ _ =>
      let H := fresh "Hrun" in
      eassert (run E tr (New n m) = Some _) as H by (vm_compute; reflexivity);
      eexists; split; [exact H|];
      pose proof (run_reachable E n m tr _ H) as Hreach
  end.

(** The amended [C2] at the state reached by the execution above. *)
Lemma C2_witness :
  ∃ s : Workers,
    run "shutdown"
      [ANewJob 0; ANewJob_send 0; AStop;
       AprocessQueue; AprocessQueue; AprocessQueue] (New 1 4) = Some s ∧
    ∃ J, heap s !! 0 = Some J ∧
    length (delivered J) ≤ 1 ∧
    (admitted J = false ∨ pending s 0 → delivered J = []) ∧
    (admitted J = true → ¬ pending s 0 → length (delivered J) = 1) ∧
    (delivered J ≠ [] →
       completed J = true ∨
       (delivered J = [Some "shutdown"] ∧ completed J = false)) ∧
    (sched s = SFinish 0 → crashed s = false →
       do_step "shutdown" AprocessQueue s
       = Some (set_sched SRange
                 (set_err None
                    (set_job 0 (send_result (err s) (close_completed J)) s)))).
Proof.
  run_witness. eexists. split; [reflexivity|].
  apply (C2_outcome_delivered_once "shutdown" _ 0 _ Hreach). reflexivity.
Defined.

(** [C3] on a pool of two workers: a job is queued, [Stop] runs to its end. *)
Lemma C3_witness :
  ∃ s : Workers,
    run "shutdown"
      [ANewJob 1; ANewJob_send 0; AStop; AStop;
       AprocessQueue; AprocessQueue; AprocessQueue; AprocessQueue; AprocessQueue;
       AStop; AStop; AstartWorker 0; AstartWorker 1;
       AStop_recv 0; AStop_recv 1; AStop] (New 2 1) = Some s ∧
    stopper s = StReturned ∧
    (1 ≤ stop_phase (stopper s) → shouldShutdown s = true) ∧
    (2 ≤ stop_phase (stopper s) → queue_closed s = true) ∧
    (3 ≤ stop_phase (stopper s) →
       ackShutdown s = true ∧ sched s = SExit ∧ queue s = [] ∧
       ∀ j J, heap s !! j = Some J → admitted J = true → length (delivered J) = 1) ∧
    (stopWorkers s = true → 4 ≤ stop_phase (stopper s)) ∧
    (stopper s = StReturned →
       count s = 2 ∧ length (workers s) = 2 ∧
       ∀ w, w < 2 → workers s !! w = Some WStopped).
Proof.
  run_witness. split; [reflexivity|].
  apply (C3_Stop_handshake "shutdown" 2 1 _ _ Hrun).
Defined.

(** [C4] on a pool of two workers whose two tasks fail with "x" and "y":
    "x" is in the slot, the second worker is about to record "y" and leaves
    the slot as it is; the job is executed to its end and [Wait] returns "x". *)
Lemma C4_witness :
  ∃ s : Workers,
    run "shutdown"
      [ANewJob 2; ANewJob_send 0; AGo 0 (Some "x"); AGo 0 (Some "y"); ADone 0 false;
       AprocessQueue; AprocessQueue; AprocessQueue; AprocessQueue; Ahandoff 0;
       AprocessQueue; AprocessQueue; Ahandoff 1;
       AstartWorker 0; AstartWorker 1; AstartWorker 0; AstartWorker 1;
       AstartWorker 0] (New 2 4) = Some s ∧
    err s = Some "x" ∧ workers s !! 1 = Some (WRecord "y") ∧
    draining (sched s) = Some 0 ∧
    (∃ s1, do_step "shutdown" (AstartWorker 1) s = Some s1 ∧ err s1 = Some "x") ∧
    ∃ s2 s3,
      run "shutdown"
        [AstartWorker 1; AstartWorker 0; AstartWorker 1;
         AprocessQueue; AprocessQueue] s = Some s2 ∧
      sched s2 = SFinish 0 ∧
      do_step "shutdown" AprocessQueue s2 = Some s3 ∧
      (∃ s4, Wait 0 s3 = Some (Some "x", s4)) ∧
      (∀ acts s' r s'', run "shutdown" acts s = Some s' →
         Wait 0 s' = Some (r, s'') → r = Some "x") ∧
      ∃ J3, heap s3 !! 0 = Some J3 ∧ delivered J3 = [Some "x"] ∧
            Wait 0 s3 = Some (Some "x", set_job 0 (set_result [] J3) s3).
Proof.
  run_witness. repeat (split; [reflexivity|]).
  destruct (C4_first_error_wins "shutdown" _ Hreach) as (Hstore & Honly & Hlater & _).
  split.
  { destruct (Hstore 1 "y" eq_refl eq_refl) as (s1 & Hs1 & He1). by exists s1. }
  lazymatch type of Hrun with
  | _ = Some ?s0 =>
      eassert (run "shutdown"
                 [AstartWorker 1; AstartWorker 0; AstartWorker 1;
                  AprocessQueue; AprocessQueue] s0 = Some _) as Hrun2
        by (vm_compute; reflexivity);
      eassert (run "shutdown"
                 [AstartWorker 1; AstartWorker 0; AstartWorker 1;
                  AprocessQueue; AprocessQueue; AprocessQueue] s0 = Some _) as Hrun3
        by (vm_compute; reflexivity)
  end.
  lazymatch type of Hrun2 with
  | _ = Some ?s2 =>
      eassert (do_step "shutdown" AprocessQueue s2 = Some _) as Hstep3
        by (vm_compute; reflexivity)
  end.
  eexists _, _. split; [exact Hrun2|]. split; [reflexivity|]. split; [exact Hstep3|].
  pose proof (reachable_run "shutdown" _ _ _ Hreach Hrun2) as Hreach2.
  destruct (C4_first_error_wins "shutdown" _ Hreach2) as (_ & _ & _ & Hfin).
  split.
  { destruct (Hfin 0 "x" eq_refl eq_refl eq_refl) as (s1 & s4 & Hs1 & _ & HW).
    rewrite Hstep3 in Hs1. injection Hs1 as <-. by exists s4. }
  split.
  { intros acts s' r s''. by apply (Honly 0 "x"). }
  destruct (Hlater 0 "x" _ _ eq_refl eq_refl Hrun3)
    as (J3 & HJ3 & [(Hd & _) | (Hdel & [HW | (Hres & _)])]).
  - vm_compute in Hd. discriminate Hd.
  - by exists J3.
  - vm_compute in HJ3. injection HJ3 as <-. vm_compute in Hres. discriminate Hres.
Defined.

(** [C5] at the end of the execution of the same job, with "x" in the slot. *)
Lemma C5_witness :
  ∃ s : Workers,
    run "shutdown"
      [ANewJob 2; ANewJob_send 0; AGo 0 (Some "x"); AGo 0 (Some "y"); ADone 0 false;
       AprocessQueue; AprocessQueue; AprocessQueue; AprocessQueue; Ahandoff 0;
       AprocessQueue; AprocessQueue; Ahandoff 1;
       AstartWorker 0; AstartWorker 1; AstartWorker 0; AstartWorker 1;
       AstartWorker 0; AstartWorker 1; AstartWorker 0; AstartWorker 1;
       AprocessQueue; AprocessQueue] (New 2 4) = Some s ∧
    sched s = SFinish 0 ∧ err s = Some "x" ∧
    (draining (sched s) = None → err s = None) ∧
    (∀ a s', do_step "shutdown" a s = Some s' → err s ≠ None → err s' = None →
       ∃ j J J', a = AprocessQueue ∧ sched s = SFinish j ∧
         heap s !! j = Some J ∧ heap s' !! j = Some J' ∧
         delivered J = [] ∧ delivered J' = [err s] ∧ completed J' = true) ∧
    (∀ j, sched s = SFinish j → crashed s = false →
       ∃ s', do_step "shutdown" AprocessQueue s = Some s' ∧
             err s' = None ∧ sched s' = SRange) ∧
    (∀ j J r, heap s !! j = Some J → completed J = true → r ∈ delivered J →
       r = None ∨ r ∈ pushed J).
Proof.
  run_witness. repeat (split; [reflexivity|]).
  apply (C5_error_slot_reset "shutdown" _ Hreach).
Defined.

(** [C6] after the first step of [Stop]. *)
Lemma C6_witness :
  ∃ s : Workers,
    run "shutdown" [AStop] (New 1 4) = Some s ∧
    shouldShutdown s = true ∧
    NewJob_check "shutdown" 3 s = (inr "shutdown", s) ∧
    (crashed s = false → do_step "shutdown" (ANewJob 3) s = Some s).
Proof.
  run_witness. split; [reflexivity|].
  apply (C6_NewJob_fails_fast "shutdown" _ 3). reflexivity.
Defined.

(** [C7] for a job with one task that is queued when [Stop] sets the flag. *)
Lemma C7_witness :
  ∃ s : Workers,
    run "shutdown" [ANewJob 1; ANewJob_send 0; AGo 0 None; AStop] (New 1 4) = Some s ∧
    shouldShutdown s = true ∧ 0 ∈ queue s ∧
    ∃ s' : Workers,
      run "shutdown" [AprocessQueue; AprocessQueue; AprocessQueue] s = Some s' ∧
      draining (sched s') ≠ Some 0 ∧
      (∃ J, heap s' !! 0 = Some J ∧ completed J = false ∧
            (pending s' 0 → delivered J = []) ∧
            (¬ pending s' 0 → delivered J = [Some "shutdown"])) ∧
      (crashed s' = false → sched s' = SCheck 0 →
         do_step "shutdown" AprocessQueue s' = Some (set_sched (SReject 0) s')) ∧
      (crashed s' = false → sched s' = SReject 0 →
         ∃ J, heap s' !! 0 = Some J ∧
           do_step "shutdown" AprocessQueue s'
           = Some (set_sched SRange
                     (set_job 0 (send_result (Some "shutdown") J) s'))).
Proof.
  run_witness. split; [reflexivity|]. split; [by left|].
  eexists. split; [vm_compute; reflexivity|].
  apply (C7_dequeued_after_shutdown_is_rejected "shutdown" _ 0
           [AprocessQueue; AprocessQueue; AprocessQueue] _ Hreach);
    [reflexivity | by left | vm_compute; reflexivity].
Defined.

(** [C8] when the scheduler has left its loop and not yet acknowledged. *)
Lemma C8_witness :
  ∃ s : Workers,
    run "shutdown" [AStop; AStop; AprocessQueue] (New 1 4) = Some s ∧
    sched s = SAck ∧
    triggeredShutdown s = ackShutdown s ∧
    (ackShutdown s = true → sched s = SExit) ∧
    (sched s = SExit → do_step "shutdown" AprocessQueue s = None) ∧
    (sched s = SAck → crashed s = false →
       ackShutdown s = false ∧
       do_step "shutdown" AprocessQueue s = Some (set_sched SExit (trigger_ack s))) ∧
    (∀ a s', do_step "shutdown" a s = Some s' → ackShutdown s' ≠ ackShutdown s →
       a = AprocessQueue ∧ sched s = SAck ∧ ackShutdown s = false ∧
       triggeredShutdown s = false ∧ triggeredShutdown s' = true ∧ sched s' = SExit).
Proof.
  run_witness. split; [reflexivity|].
  apply (C8_ack_closed_once "shutdown" _ Hreach).
Defined.

(** [C10] A job is created and admitted with the shutdown flag unset and
    finalized without a task; [Stop] sets the flag before the scheduler
    dequeues the job.  The scheduler takes the shutdown branch: [Wait] returns
    [ErrShutdown], not [nil], and the completion signal has not fired. *)
Lemma C10_counterexample :
  ¬ (∀ (s : Workers) j J r s',
       reachable "shutdown" s → heap s !! j = Some J → admitted J = true →
       pushed J = [] → tasks_closed J = true →
       Wait j s = Some (r, s') → r = None ∧ completed J = true).
Proof.
  intros H.
  assert (Hr : ∃ s : Workers,
            run "shutdown"
              [ANewJob 0; ANewJob_send 0; ADone 0 false; AStop;
               AprocessQueue; AprocessQueue; AprocessQueue] (New 1 4) = Some s).
  { eexists. vm_compute. reflexivity. }
  destruct Hr as [s Hs].
  assert (Hreach : reachable "shutdown" s) by (by eexists _, _, _).
  vm_compute in Hs. injection Hs as <-.
  destruct (H _ 0 _ (Some "shutdown") _ Hreach eq_refl eq_refl eq_refl eq_refl eq_refl)
    as [Hnil _].
  discriminate Hnil.
Qed.

(** [C10] for a job finalized without a task, once the scheduler starts on it. *)
Lemma C10_witness :
  ∃ s : Workers,
    run "shutdown"
      [ANewJob 0; ANewJob_send 0; ADone 0 false; AprocessQueue; AprocessQueue]
      (New 1 4) = Some s ∧
    crashed s = false ∧ sched s = SDrain 0 ∧
    ∃ J, heap s !! 0 = Some J ∧ pushed J = [] ∧ tasks_closed J = true ∧
    (∃ s', run "shutdown" [AprocessQueue; AprocessQueue; AprocessQueue] s = Some s' ∧
           sched s' = SRange ∧
           (∃ J', heap s' !! 0 = Some J' ∧ completed J' = true ∧
                  delivered J' = [None]) ∧
           ∃ s'', Wait 0 s' = Some (None, s'')) ∧
    (∀ acts s1 r s2, run "shutdown" acts s = Some s1 → Wait 0 s1 = Some (r, s2) →
       r = None ∧ ∃ J1, heap s1 !! 0 = Some J1 ∧ completed J1 = true).
Proof.
  run_witness. repeat (split; [reflexivity|]).
  eexists. repeat (split; [reflexivity|]).
  eapply (C10_empty_job "shutdown" _ 0 _ Hreach); reflexivity.
Defined.

(** * Concrete instances of the further properties *)

(** [X1] when the one worker has run the task of a job and is about to call
    [w.sg.Done()]; the scheduler waits in the drain loop. *)
Lemma X1_witness :
  ∃ s : Workers,
    run "shutdown"
      [ANewJob 1; ANewJob_send 0; AGo 0 None;
       AprocessQueue; AprocessQueue; AprocessQueue; AprocessQueue; Ahandoff 0;
       AstartWorker 0; AstartWorker 0] (New 1 4) = Some s ∧
    crashed s = false ∧ workers s !! 0 = Some WDone ∧ sg s = 1 ∧
    (∀ s', do_step "shutdown" AprocessQueue s = Some s' → crashed s' = false) ∧
    ∃ s', do_step "shutdown" (AstartWorker 0) s = Some s' ∧ crashed s' = false ∧
          sg s = S (sg s').
Proof.
  run_witness. repeat (split; [reflexivity|]).
  destruct (X1_pool_never_panics "shutdown" _ Hreach eq_refl) as [Hsched Hwork].
  split; [exact Hsched|]. apply (Hwork 0). left. reflexivity.
Defined.

(** [X2] for a job whose only task fails with "x", once it was executed. *)
Lemma X2_witness :
  ∃ s : Workers,
    run "shutdown"
      [ANewJob 1; ANewJob_send 0; AGo 0 (Some "x"); ADone 0 false;
       AprocessQueue; AprocessQueue; AprocessQueue; AprocessQueue; Ahandoff 0;
       AstartWorker 0; AstartWorker 0; AstartWorker 0; AstartWorker 0;
       AprocessQueue; AprocessQueue; AprocessQueue] (New 1 4) = Some s ∧
    ∃ s', Wait 0 s = Some (Some "x", s') ∧
    ∃ J, heap s !! 0 = Some J ∧ admitted J = true ∧
         result J = [Some "x"] ∧ delivered J = [Some "x"] ∧
         s' = set_job 0 (set_result [] J) s ∧
         ((completed J = true ∧ (Some "x" = None ∨ Some "x" ∈ pushed J)) ∨
          (completed J = false ∧ Some "x" = Some "shutdown")).
Proof.
  run_witness. eexists. split; [vm_compute; reflexivity|].
  eapply (X2_Wait_value "shutdown" _ 0 _ _ Hreach). vm_compute. reflexivity.
Defined.

(** [X3] when [Stop] has run to its end on a pool of two workers. *)
Lemma X3_witness :
  ∃ s : Workers,
    run "shutdown"
      [ANewJob 1; ANewJob_send 0; AStop; AStop;
       AprocessQueue; AprocessQueue; AprocessQueue; AprocessQueue; AprocessQueue;
       AStop; AStop; AstartWorker 0; AstartWorker 1;
       AStop_recv 0; AStop_recv 1; AStop] (New 2 1) = Some s ∧
    stopWorkers s = true ∧
    sg s = 0 ∧ err s = None ∧ queue s = [] ∧ sched s = SExit ∧
    (∀ w pc, workers s !! w = Some pc → is_active pc = false) ∧
    (∀ j J, heap s !! j = Some J → admitted J = true → length (delivered J) = 1).
Proof.
  run_witness. split; [reflexivity|].
  eapply (X3_stop_signal_after_tasks "shutdown" _ Hreach). reflexivity.
Defined.

(** [X4] from the state in which [Stop] has closed [stopWorkers], where all
    five flags are set, along the steps that end the worker and [Stop]; and
    from the state in which [NewJob] has panicked on the closed queue. *)
Lemma X4_witness :
  (∃ s : Workers,
     run "shutdown"
       [AStop; AStop; AprocessQueue; AprocessQueue; AStop; AStop] (New 1 4)
     = Some s ∧
     shouldShutdown s = true ∧ queue_closed s = true ∧
     triggeredShutdown s = true ∧ ackShutdown s = true ∧ stopWorkers s = true ∧
     ∃ s', run "shutdown" [AstartWorker 0; AStop_recv 0; AStop] s = Some s' ∧
           stopper s' = StReturned ∧
           count s' = 1 ∧ maxJobs s' = 4 ∧
           shouldShutdown s' = true ∧ queue_closed s' = true ∧
           triggeredShutdown s' = true ∧ ackShutdown s' = true ∧
           stopWorkers s' = true) ∧
  (∃ s : Workers,
     run "shutdown" [ANewJob 2; AStop; AStop; ANewJob_send 0] (New 1 4) = Some s ∧
     crashed s = true ∧
     ∀ acts s', run "shutdown" acts s = Some s' → s' = s).
Proof.
  split.
  - run_witness. repeat (split; [reflexivity|]).
    lazymatch type of Hrun with
    | _ = Some ?s0 =>
        eassert (run "shutdown" [AstartWorker 0; AStop_recv 0; AStop] s0 = Some _)
          as Hrun2 by (vm_compute; reflexivity)
    end.
    eexists. split; [exact Hrun2|]. split; [reflexivity|].
    destruct (X4_flags_monotone "shutdown" _ _ _ Hrun2)
      as (Hc & Hm & H1 & H2 & H3 & H4 & H5 & _).
    split; [exact Hc|]. split; [exact Hm|].
    split; [exact (H1 eq_refl)|]. split; [exact (H2 eq_refl)|].
    split; [exact (H3 eq_refl)|]. split; [exact (H4 eq_refl)|]. exact (H5 eq_refl).
  - run_witness. split; [reflexivity|]. intros acts s' Hrun2.
    destruct (X4_flags_monotone "shutdown" _ _ _ Hrun2) as (_ & _ & _ & _ & _ & _ & _ & Hcr).
    exact (Hcr eq_refl).
Defined.

(** [X5] after the worker of a one-worker pool has skipped a task. *)
Lemma X5_witness :
  ∃ s : Workers,
    run "shutdown"
      [ANewJob 2; ANewJob_send 0; AGo 0 (Some "x"); AGo 0 None; ADone 0 false;
       AprocessQueue; AprocessQueue; AprocessQueue; AprocessQueue; Ahandoff 0;
       AstartWorker 0; AstartWorker 0; AstartWorker 0; AstartWorker 0;
       AprocessQueue; AprocessQueue; Ahandoff 0;
       AstartWorker 0; AstartWorker 0] (New 1 4) = Some s ∧
    workers s !! 0 = Some WReturned ∧
    ∃ s', run "shutdown" [AprocessQueue; AprocessQueue; AprocessQueue; AStop; AStop] s
          = Some s' ∧
    workers s' !! 0 = Some WReturned ∧ stopper s' ≠ StReturned.
Proof.
  run_witness. split; [reflexivity|].
  eexists. split; [vm_compute; reflexivity|].
  eapply (X5_early_return_blocks_Stop "shutdown" _ 0
           [AprocessQueue; AprocessQueue; AprocessQueue; AStop; AStop] _ Hreach);
    [reflexivity | vm_compute; reflexivity].
Defined.

(** [X6] for two jobs queued one after the other, when the scheduler takes the
    second. *)
Lemma X6_witness :
  ∃ s : Workers,
    run "shutdown" [ANewJob 0; ANewJob_send 0; ANewJob 0; ANewJob_send 1]
      (New 1 4) = Some s ∧
    queue s = [] ++ 0 :: [] ++ 1 :: [] ∧
    ∃ s', run "shutdown"
            [ADone 0 false; AprocessQueue; AprocessQueue; AprocessQueue;
             AprocessQueue; AprocessQueue; AprocessQueue] s = Some s' ∧
    sched_job (sched s') = Some 1 ∧
    ∃ J1, heap s' !! 0 = Some J1 ∧ delivered J1 ≠ [].
Proof.
  run_witness. split; [reflexivity|].
  eexists. split; [vm_compute; reflexivity|]. split; [reflexivity|].
  eapply (X6_fifo "shutdown" _ 0 1 [] [] []
           [ADone 0 false; AprocessQueue; AprocessQueue; AprocessQueue;
            AprocessQueue; AprocessQueue; AprocessQueue] _ Hreach);
    [reflexivity | vm_compute; reflexivity | left; reflexivity].
Defined.

(** [X7] for a job whose only task fails with "x": a second [Wait] blocks. *)
Lemma X7_witness :
  ∃ s : Workers,
    run "shutdown"
      [ANewJob 1; ANewJob_send 0; AGo 0 (Some "x"); ADone 0 false;
       AprocessQueue; AprocessQueue; AprocessQueue; AprocessQueue; Ahandoff 0;
       AstartWorker 0; AstartWorker 0; AstartWorker 0; AstartWorker 0;
       AprocessQueue; AprocessQueue; AprocessQueue] (New 1 4) = Some s ∧
    crashed s = false ∧
    ∃ s1, Wait 0 s = Some (Some "x", s1) ∧
    ∃ s2, run "shutdown" [AStop; ANewJob 1] s1 = Some s2 ∧
    Wait 0 s2 = None.
Proof.
  run_witness. split; [reflexivity|].
  eexists. split; [vm_compute; reflexivity|].
  eexists. split; [vm_compute; reflexivity|].
  eapply (X7_Wait_once "shutdown" _ 0 (Some "x") _ [AStop; ANewJob 1] _ Hreach);
    [reflexivity | vm_compute; reflexivity | vm_compute; reflexivity].
Defined.

(** [X8] on a pool with a queue of capacity one. *)
Lemma X8_witness :
  ∃ s : Workers,
    run "shutdown" [ANewJob 1; ANewJob_send 0; AGo 0 None] (New 1 1) = Some s ∧
    (length (queue s) ≤ 1 ∨ (length (queue s) = 1 ∧ sched s = SRange)) ∧
    (1 ≤ 1 → length (queue s) ≤ 1) ∧
    (∀ j J, heap s !! j = Some J →
       (length (tasks J) ≤ tasks_cap J ∨
        (length (tasks J) = 1 ∧ sched s = SDrain j)) ∧
       (1 ≤ tasks_cap J → length (tasks J) ≤ tasks_cap J)).
Proof.
  run_witness. apply (X8_bounded_buffers "shutdown" 1 1 _ _ Hrun).
Defined.

(** [X9] for an empty job finalized with a callback, after the callback ran. *)
Lemma X9_witness :
  ∃ s : Workers,
    run "shutdown"
      [ANewJob 0; ANewJob_send 0; ADone 0 true;
       AprocessQueue; AprocessQueue; AprocessQueue; AprocessQueue; AprocessQueue;
       ADone_callback 0] (New 1 4) = Some s ∧
    ∃ J, heap s !! 0 = Some J ∧ callback J = CbCalled ∧
    completed J = true ∧ tasks_closed J = true ∧ tasks J = [] ∧
    admitted J = true.
Proof.
  run_witness. eexists. split; [reflexivity|]. split; [reflexivity|].
  eapply (X9_callback_after_completion "shutdown" _ 0 _ Hreach); reflexivity.
Defined.

(** [X10] for a job finalized with a callback and queued when [Stop] begins. *)
Lemma X10_witness :
  ∃ s : Workers,
    run "shutdown" [ANewJob 0; ANewJob_send 0; ADone 0 true; AStop] (New 1 4)
    = Some s ∧
    shouldShutdown s = true ∧ 0 ∈ queue s ∧
    ∃ s', run "shutdown" [AprocessQueue; AprocessQueue; AprocessQueue] s = Some s' ∧
    ∃ J', heap s' !! 0 = Some J' ∧
    callback J' ≠ CbCalled ∧ Done_callback 0 s' = None.
Proof.
  run_witness. split; [reflexivity|]. split; [by left|].
  eexists. split; [vm_compute; reflexivity|].
  eexists. split; [reflexivity|].
  eapply (X10_no_callback_for_rejected "shutdown" _ 0
           [AprocessQueue; AprocessQueue; AprocessQueue] _ _ Hreach);
    [reflexivity | by left | vm_compute; reflexivity | reflexivity].
Defined.

(** [X11] for a job with two failing tasks run by two workers: when the
    scheduler has passed [w.sg.Wait()], both workers have called
    [w.sg.Done()] and are back at the select; and one step later, when the
    completion signal has fired. *)
Lemma X11_witness :
  ∃ s : Workers,
    run "shutdown"
      [ANewJob 2; ANewJob_send 0; AGo 0 (Some "x"); AGo 0 (Some "y"); ADone 0 false;
       AprocessQueue; AprocessQueue; AprocessQueue; AprocessQueue; Ahandoff 0;
       AprocessQueue; AprocessQueue; Ahandoff 1;
       AstartWorker 0; AstartWorker 1; AstartWorker 0; AstartWorker 1;
       AstartWorker 0; AstartWorker 1; AstartWorker 0; AstartWorker 1;
       AprocessQueue; AprocessQueue] (New 2 4) = Some s ∧
    sched s = SFinish 0 ∧
    (∃ J, heap s !! 0 = Some J ∧ pushed J = [Some "x"; Some "y"] ∧
          tasks_closed J = true ∧ tasks J = [] ∧ sg s = 0 ∧
          ∀ w pc, workers s !! w = Some pc → is_active pc = false) ∧
    ∃ s', do_step "shutdown" AprocessQueue s = Some s' ∧
    ∃ J', heap s' !! 0 = Some J' ∧ completed J' = true ∧
          pushed J' = [Some "x"; Some "y"] ∧
          tasks_closed J' = true ∧ tasks J' = [].
Proof.
  run_witness. split; [reflexivity|]. split.
  - eexists. split; [reflexivity|]. split; [reflexivity|].
    eapply (X11_wait_for_all "shutdown" _ 0 _ Hreach); reflexivity.
  - lazymatch type of Hrun with
    | _ = Some ?s0 =>
        eassert (run "shutdown" [AprocessQueue] s0 = Some _) as Hrun2
          by (vm_compute; reflexivity)
    end.
    eexists. split; [vm_compute; reflexivity|].
    eexists. split; [reflexivity|]. split; [reflexivity|]. split; [reflexivity|].
    eapply (X11_wait_for_all "shutdown" _ 0 _
              (reachable_run "shutdown" _ _ _ Hreach Hrun2)); reflexivity.
Defined.

(** [X12] when [Stop] has just closed [stopWorkers] on a pool of two workers. *)
Lemma X12_witness :
  ∃ s : Workers,
    run "shutdown" [AStop; AStop; AprocessQueue; AprocessQueue; AStop; AStop]
      (New 2 1) = Some s ∧
    crashed s = false ∧ stopper s = StRecv 0 ∧
    (∀ w, workers s !! w ≠ Some WReturned) ∧
    ∃ acts s', run "shutdown" acts s = Some s' ∧ stopper s' = StReturned ∧
               crashed s' = false.
Proof.
  run_witness. split; [reflexivity|]. split; [reflexivity|].
  assert (Hnr : ∀ w, workers
            (mkWorkers 2 1 [] true true true (None : option string) 0 true true
               SExit [WSelect; WSelect] (StRecv 0) [] false) !! w
          ≠ Some WReturned) by (intros [|[|w]]; discriminate).
  split; [exact Hnr|].
  eapply (X12_Stop_can_complete "shutdown" _ 0 Hreach); [reflexivity | reflexivity | exact Hnr].
Defined.

(** [X13] on a pool without workers, for a job with one task. *)
Lemma X13_witness :
  ∃ s : Workers,
    run "shutdown"
      [ANewJob 1; ANewJob_send 0; AGo 0 None; ADone 0 false;
       AprocessQueue; AprocessQueue; AprocessQueue; AprocessQueue] (New 0 1)
    = Some s ∧
    ∃ J, heap s !! 0 = Some J ∧ pushed J ≠ [] ∧
    completed J = false ∧
    (delivered J = [] ∨ delivered J = [Some "shutdown"]) ∧
    (∀ r s', Wait 0 s = Some (r, s') → r = Some "shutdown") ∧
    (tasks J = pushed J ∨
     ∃ t, pushed J = t :: tasks J ∧ sched_held (sched s) = Some t).
Proof.
  run_witness. eexists. split; [reflexivity|]. split; [discriminate|].
  eapply (X13_no_worker "shutdown" 1 _ _ 0 _ Hrun); [reflexivity | discriminate].
Defined.

(** [X14] for a job with a task that fails with "x", followed by a task that
    the worker skips. *)
Lemma X14_witness :
  ∃ s : Workers,
    run "shutdown"
      [ANewJob 2; ANewJob_send 0; AGo 0 (Some "x"); AGo 0 None; ADone 0 false;
       AprocessQueue; AprocessQueue; AprocessQueue; AprocessQueue; Ahandoff 0;
       AstartWorker 0; AstartWorker 0; AstartWorker 0; AstartWorker 0;
       AprocessQueue; AprocessQueue; Ahandoff 0;
       AstartWorker 0; AstartWorker 0;
       AprocessQueue; AprocessQueue; AprocessQueue] (New 1 4) = Some s ∧
    ∃ J, heap s !! 0 = Some J ∧ completed J = true ∧ Some "x" ∈ pushed J ∧
    (∃ e', delivered J = [Some e'] ∧ Some e' ∈ pushed J) ∧
    (∀ r s', Wait 0 s = Some (r, s') → ∃ e', r = Some e').
Proof.
  run_witness. eexists. split; [reflexivity|].
  assert (Some "x" ∈ [Some "x"; None]) as Hin by (by left).
  split; [reflexivity|]. split; [exact Hin|].
  eapply (X14_failure_not_lost "shutdown" _ 0 _ "x" Hreach); [reflexivity | reflexivity | exact Hin].
Defined.
